(** * stylusless: userstyle to userContent.css pipeline

    A shallow embedding of [src/index.ts] (both revisions found in the
    file: the css-tree based one and the earlier textual one) and the
    properties of its specification.

    JavaScript strings are sequences of UTF-16 code units; they are modelled
    as lists of code units ([N]).  The css-tree library (parser, lexer and
    serializer) is not part of the repository: the functions that call it
    are stated inside a section that takes its three entry points as
    variables. *)

From Stdlib Require Import List NArith ZArith Lia Bool String Ascii.
From Stdlib Require Import DecimalString.
Import ListNotations.

Set Implicit Arguments.
Set Warnings "-register-all".

(** ** JavaScript strings *)

Module JS.

Definition jsstring := list N.

(** A literal: the code units of an 8-bit string. *)
Definition js (s : string) : jsstring :=
  map N_of_ascii (list_ascii_of_string s).

Definition str_eqb (a b : jsstring) : bool :=
  if list_eq_dec N.eq_dec a b then true else false.

(** Code units the source names. *)
Definition c_backslash : N := 92.
Definition c_dollar : N := 36.
Definition c_amp : N := 38.
Definition c_backtick : N := 96.
Definition c_quote : N := 39.
Definition c_dquote : N := 34.
Definition c_colon : N := 58.
Definition c_semi : N := 59.
Definition c_bang : N := 33.
Definition c_space : N := 32.
Definition c_lf : N := 10.

(** [p] is a prefix of [s]. *)
Fixpoint startsWith (p s : jsstring) : bool :=
  match p, s with
  | [], _ => true
  | a :: p', b :: s' => (a =? b)%N && startsWith p' s'
  | _ :: _, [] => false
  end.

(** [String.prototype.includes]. *)
Fixpoint includes (s p : jsstring) : bool :=
  startsWith p s ||
  match s with
  | [] => false
  | _ :: s' => includes s' p
  end.

(** [String.prototype.substr(1)]: everything after the first code unit. *)
Definition substr1 (s : jsstring) : jsstring := tl s.

(** Decimal rendering of a non-negative integer, as a template literal
    renders a Number holding one. *)
Definition showN (n : N) : jsstring :=
  js (NilZero.string_of_uint (N.to_uint n)).

(** JavaScript truthiness of a possibly missing string or number. *)
Definition truthy_str (o : option jsstring) : bool :=
  match o with Some (_ :: _) => true | _ => false end.

Definition truthy_num (o : option N) : bool :=
  match o with Some n => negb (n =? 0)%N | None => false end.

(** *** [String.prototype.replace] with a global regular expression

    A regular expression without anchors or look-behind is given by what it
    matches at the start of the remaining input: the length of the match
    and its capture groups. *)
Definition matcher := jsstring -> option (nat * list jsstring).

Definition isDigit (c : N) : bool := (48 <=? c)%N && (c <=? 57)%N.
Definition digitVal (c : N) : nat := N.to_nat (c - 48).

(** The capture numbered [i] (from 1), when [1 <= i <= m]. *)
Definition capture (caps : list jsstring) (i : nat) : option jsstring :=
  match i with
  | O => None
  | S k => nth_error caps k
  end.

(** [GetSubstitution] of ECMA-262 without named groups: expands the
    replacement template for one match. *)
Fixpoint getSubstitution (matched before after : jsstring)
    (caps : list jsstring) (template : jsstring) : jsstring :=
  match template with
  | [] => []
  | c :: t1 =>
    if negb (c =? c_dollar)%N then
      c :: getSubstitution matched before after caps t1
    else
      match t1 with
      | [] => [c]
      | d :: t2 =>
        if (d =? c_dollar)%N then
          c_dollar :: getSubstitution matched before after caps t2
        else if (d =? c_amp)%N then
          matched ++ getSubstitution matched before after caps t2
        else if (d =? c_backtick)%N then
          before ++ getSubstitution matched before after caps t2
        else if (d =? c_quote)%N then
          after ++ getSubstitution matched before after caps t2
        else if isDigit d then
          let one :=
            match capture caps (digitVal d) with
            | Some cap => cap ++ getSubstitution matched before after caps t2
            | None => c :: getSubstitution matched before after caps t1
            end in
          match t2 with
          | e :: t3 =>
            if isDigit e then
              match capture caps (10 * digitVal d + digitVal e) with
              | Some cap => cap ++ getSubstitution matched before after caps t3
              | None => one
              end
            else one
          | [] => one
          end
        else c :: getSubstitution matched before after caps t1
      end
  end.

Section Replace.
Variable m : matcher.
Variable template : jsstring.

(** The scan of [RegExp.prototype[Symbol.replace]] with the [g] flag:
    [before] holds the code units already passed (in reverse), [skip]
    the code units of the last match still to pass.  An empty match
    advances by one code unit. *)
Fixpoint replace_go (before : jsstring) (skip : nat) (s : jsstring)
    : jsstring :=
  match skip with
  | S k =>
    match s with
    | [] => []
    | c :: s' => replace_go (c :: before) k s'
    end
  | O =>
    match m s with
    | Some (len, caps) =>
      getSubstitution (firstn len s) (rev before) (skipn len s) caps template
      ++ match s with
         | [] => []
         | c :: s' =>
           match len with
           | O => c :: replace_go (c :: before) 0 s'
           | S k => replace_go (c :: before) k s'
           end
         end
    | None =>
      match s with
      | [] => []
      | c :: s' => c :: replace_go (c :: before) 0 s'
      end
    end
  end.

Definition replaceGlobal (s : jsstring) : jsstring := replace_go [] 0 s.
End Replace.


(** *** Numbers

    The Numbers the program handles are results of [parseInt]: not-a-number,
    an integer-valued double, or an infinity (the sign of a zero plays no
    part in what follows and is not kept). *)
Inductive number : Type :=
| NaN
| Num (z : Z)
| Infinity (negative : bool).

(** [StrWhiteSpaceChar]: white space and line terminators. *)
Definition isWhiteSpace (c : N) : bool :=
  ((9 <=? c) && (c <=? 13) || (c =? 32) || (c =? 160) || (c =? 5760)
   || (8192 <=? c) && (c <=? 8202) || (c =? 8232) || (c =? 8233)
   || (c =? 8239) || (c =? 8287) || (c =? 12288) || (c =? 65279))%N.

Fixpoint trimStart (s : jsstring) : jsstring :=
  match s with
  | c :: s' => if isWhiteSpace c then trimStart s' else s
  | [] => []
  end.

(** The value of a code unit as a digit of the given radix. *)
Definition digitOf (radix : Z) (c : N) : option Z :=
  let v :=
    if (48 <=? c)%N && (c <=? 57)%N then Some (Z.of_N c - 48)%Z
    else if (97 <=? c)%N && (c <=? 122)%N then Some (Z.of_N c - 87)%Z
    else if (65 <=? c)%N && (c <=? 90)%N then Some (Z.of_N c - 55)%Z
    else None in
  match v with
  | Some d => if (d <? radix)%Z then Some d else None
  | None => None
  end.

(** The longest run of radix digits at the start of [s], as an integer;
    [acc] is [None] until a digit has been read. *)
Fixpoint readDigits (radix : Z) (acc : option Z) (s : jsstring) : option Z :=
  match s with
  | c :: s' =>
    match digitOf radix c with
    | Some d =>
      let a := match acc with Some a => a | None => 0%Z end in
      readDigits radix (Some (radix * a + d)%Z) s'
    | None => acc
    end
  | [] => acc
  end.

(** The double nearest to an integer (ties to even, overflow to infinity).
    ECMA-262 lets an implementation approximate after the 20th decimal
    digit; this is what correct rounding gives. *)
Definition toDouble (z : Z) : number :=
  let m := Z.abs z in
  if (m <? 2 ^ 53)%Z then Num z
  else
    let e := (Z.log2 m - 52)%Z in
    let q := Z.shiftr m e in
    let r := (m - Z.shiftl q e)%Z in
    let half := Z.shiftl 1 (e - 1) in
    let q' := if (half <? r)%Z || ((r =? half)%Z && Z.odd q)
              then (q + 1)%Z else q in
    let m' := Z.shiftl q' e in
    if (Z.shiftl 1 1024 <=? m')%Z then Infinity (z <? 0)%Z
    else Num (Z.sgn z * m')%Z.

(** Steps of [parseInt]: an optional sign, then an optional [0x] or [0X]
    that selects radix 16. *)
Definition stripSign (str : jsstring) : Z * jsstring :=
  match str with
  | c :: str' =>
    if (c =? 45)%N then ((-1)%Z, str')
    else if (c =? 43)%N then (1%Z, str')
    else (1%Z, str)
  | [] => (1%Z, str)
  end.

Definition stripPrefix (str : jsstring) : Z * jsstring :=
  match str with
  | c0 :: cx :: str' =>
    if (c0 =? 48)%N && ((cx =? 120)%N || (cx =? 88)%N)
    then (16%Z, str') else (10%Z, str)
  | _ => (10%Z, str)
  end.

(** [parseInt(string)] with no radix argument. *)
Definition parseInt (string : jsstring) : number :=
  let '(sign, str) := stripSign (trimStart string) in
  let '(R, str) := stripPrefix str in
  match readDigits R None str with
  | None => NaN
  | Some mathInt => toDouble (sign * mathInt)
  end.

(** [ToInt32]: what the bitwise operators see of a Number. *)
Definition ToInt32 (x : number) : Z :=
  match x with
  | Num z =>
    let k := (z mod 2 ^ 32)%Z in
    if (k <? 2 ^ 31)%Z then k else (k - 2 ^ 32)%Z
  | _ => 0%Z
  end.

(** Decimal rendering of an integer Number. *)
Definition showZ (z : Z) : jsstring :=
  if (z <? 0)%Z then 45%N :: showN (Z.abs_N z) else showN (Z.to_N z).

(** *** Failure *)
Inductive exn : Type :=
| TypeError            (* a property read on null or undefined *)
| Error (message : jsstring).

Inductive result (A : Type) : Type :=
| Ok (a : A)
| Throw (e : exn).
Arguments Throw {A} e.

Definition bind {A B} (x : result A) (f : A -> result B) : result B :=
  match x with
  | Ok a => f a
  | Throw e => Throw e
  end.

End JS.

Import JS.

Notation "x <- c1 ;; c2" := (bind c1 (fun x => c2))
  (at level 61, c1 at next level, right associativity).

(** ** Variable resolver (index.ts, [replaceAll] .. [assignVariables]) *)

(** The characters of [/[-\/\\^$*+?.()|[\]{}]/]. *)
Definition regExpSpecial (c : N) : bool :=
  existsb (N.eqb c) (js "-/\^$*+?.()|[]{}").

Definition re_special : matcher := fun s =>
  match s with
  | c :: _ => if regExpSpecial c then Some (1%nat, []) else None
  | [] => None
  end.

(** [find.replace(/[-\/\\^$*+?.()|[\]{}]/g, "\\$&")]: the pattern text
    handed to [new RegExp]. *)
Definition escapeRegExp (find : jsstring) : jsstring :=
  replaceGlobal re_special (js "\$&") find.

(** What a pattern text made of identity escapes and ordinary characters
    matches: the code units themselves.  [None] when the text uses regular
    expression syntax. *)
Fixpoint literalPattern (pattern : jsstring) : option jsstring :=
  match pattern with
  | [] => Some []
  | c :: p1 =>
    if (c =? c_backslash)%N then
      match p1 with
      | d :: p2 =>
        if regExpSpecial d
        then option_map (cons d) (literalPattern p2)
        else None
      | [] => None
      end
    else if regExpSpecial c then None
    else option_map (cons c) (literalPattern p1)
  end.

(** The regular expression that matches the code units of [lit]. *)
Definition re_literal (lit : jsstring) : matcher := fun s =>
  if startsWith lit s then Some (List.length lit, []) else None.

(** [replaceAll]: the expression built from the escaped [find] matches the
    code units of [find] (see [literalPattern_escapeRegExp]); [replace] is
    handed to [String.prototype.replace] as it is, so it is read as a
    replacement template. *)
Definition replaceAll (str find replace : jsstring) : jsstring :=
  replaceGlobal (re_literal find) replace str.

Definition colorHexToRGB (hexColor : jsstring) : jsstring :=
  let value := parseInt (substr1 hexColor) in
  let r := Z.land (Z.shiftr (ToInt32 value) 16) 255 in
  let g := Z.land (Z.shiftr (ToInt32 value) 8) 255 in
  let b := Z.land (ToInt32 value) 255 in
  showZ r ++ js ", " ++ showZ g ++ js ", " ++ showZ b.

(** usercss-meta.d.ts ([Variable] is written [MetaVariable] here) *)
Record SelectVariableOption : Type := {
  opt_name : jsstring;
  opt_label : jsstring;
  opt_value : jsstring
}.

Record MetaVariable : Type := {
  type : jsstring;
  label : jsstring;
  name : jsstring;
  value : option jsstring;
  default : jsstring;
  options : option (list SelectVariableOption);
  units : option jsstring
}.

(** [vars] lists the own properties of the object in the order
    [Object.keys] gives them; [None] is an absent field. *)
Record Metadata : Type := {
  preprocessor : option jsstring;
  vars : option (list (jsstring * MetaVariable))
}.

Definition oneOf (s : jsstring) (l : list jsstring) : bool :=
  existsb (str_eqb s) l.

Definition valueForVariable (variable : MetaVariable) : result jsstring :=
  if oneOf (type variable) [js "select"; js "dropdown"; js "image"] then
    match options variable with
    | None => Throw TypeError
    | Some opts =>
      match find (fun option => str_eqb (opt_name option) (default variable))
                 opts with
      | Some option => Ok (opt_value option)
      | None => Throw TypeError
      end
    end
  else if oneOf (type variable) [js "number"; js "range"] then
    Ok (default variable ++ match units variable with
                            | Some u => u
                            | None => []
                            end)
  else Ok (default variable).

(** [vars[name]] *)
Fixpoint lookupVar (vs : list (jsstring * MetaVariable)) (name : jsstring)
    : option MetaVariable :=
  match vs with
  | [] => None
  | (k, v) :: vs' => if str_eqb k name then Some v else lookupVar vs' name
  end.

(** The callback handed to [reduce]. *)
Definition substituteVariable (vs : list (jsstring * MetaVariable))
    (style name : jsstring) : result jsstring :=
  match lookupVar vs name with
  | None => Throw TypeError
  | Some v =>
    value <- valueForVariable v ;;
    let newStyle :=
      replaceAll style (js "/*[[" ++ name ++ js "]]*/") value in
    if str_eqb (type v) (js "color") then
      value' <- valueForVariable v ;;
      Ok (replaceAll newStyle (js "/*[[" ++ name ++ js "-rgb]]*/")
                     (colorHexToRGB value'))
    else Ok newStyle
  end.

Definition assignVariables (styleText : jsstring) (metadata : Metadata)
    : result jsstring :=
  match preprocessor metadata with
  | None => Ok styleText
  | Some p =>
    if str_eqb p (js "default") then Ok styleText
    else if str_eqb p (js "uso") then
      match vars metadata with
      | None => Throw TypeError
      | Some vs =>
        fold_left (fun acc name =>
                     style <- acc ;; substituteVariable vs style name)
                  (map fst vs) (Ok styleText)
      end
    else Throw (Error (js "preprocessor not implemented"))
  end.

(** ** Escape repair for [regexp()] arguments (index.ts, [escapeCSSRegExp]) *)

(** [/([^\\]\\)/]: a code unit other than a backslash, then a backslash;
    the whole match is group 1. *)
Definition re_single_escape : matcher := fun s =>
  match s with
  | c :: d :: _ =>
    if negb (c =? c_backslash)%N && (d =? c_backslash)%N
    then Some (2%nat, [[c; d]])
    else None
  | _ => None
  end.

Definition escapeCSSRegExp (regexp : jsstring) : jsstring :=
  if includes regexp (js "\\") then
    (* Assume already properly escaped if the regexp contains \\ *)
    regexp
  else
    (* Replace single-backslash escapes with double-backslashes. *)
    replaceGlobal re_single_escape (js "$1\") regexp.

(** The repair as the specification words it: every backslash that stands
    alone (no backslash before it, none after it) and has a character
    before it gets a second backslash after it; nothing else changes. *)
Fixpoint doubleSingleEscapes (prev : option N) (s : jsstring) : jsstring :=
  match s with
  | [] => []
  | c :: s' =>
    let after_non_backslash :=
      match prev with
      | Some p => negb (p =? c_backslash)%N
      | None => false
      end in
    let before_non_backslash :=
      match s' with
      | d :: _ => negb (d =? c_backslash)%N
      | [] => true
      end in
    if (c =? c_backslash)%N && after_non_backslash && before_non_backslash
    then c :: c_backslash :: doubleSingleEscapes (Some c) s'
    else c :: doubleSingleEscapes (Some c) s'
  end.

(** ** Textual importance escalation (earlier revision, [adjustPriority]) *)

(** [[^\!]*?] followed by [;\n]: the number of code units the lazy star
    takes, the fewest that let the rest match. *)
Fixpoint lazyValue (s : jsstring) : option nat :=
  match s with
  | c :: s' =>
    if (c =? c_semi)%N
       && match s' with d :: _ => (d =? c_lf)%N | [] => false end
    then Some 0%nat
    else if (c =? c_bang)%N then None
    else option_map S (lazyValue s')
  | [] => None
  end.

(** [/(: ?[^\!]*?);\n/]: group 1 is everything before the semicolon.  The
    optional space is tried taken first, then left out. *)
Definition re_declaration : matcher := fun s =>
  match s with
  | c :: s1 =>
    if (c =? c_colon)%N then
      let no_space :=
        match lazyValue s1 with
        | Some n => Some (n + 3, [firstn (n + 1) s])%nat
        | None => None
        end in
      match s1 with
      | sp :: s2 =>
        if (sp =? c_space)%N then
          match lazyValue s2 with
          | Some n => Some (n + 4, [firstn (n + 2) s])%nat
          | None => no_space
          end
        else no_space
      | [] => no_space
      end
    else None
  | [] => None
  end.

Definition adjustPriority (styleText : jsstring) : jsstring :=
  replaceGlobal re_declaration (js "$1 !important;" ++ [c_lf]) styleText.

(** ** The structural tree (css-tree's AST, as far as index.ts reads it) *)

(** [node.loc.start] *)
Record loc : Type := { line : N; column : N }.

(** [Declaration.important]: a boolean, or the text of a hack such as
    [!ie]. *)
Inductive importance : Type :=
| Important (b : bool)
| ImportantText (s : jsstring).

(** Nodes found in the prelude of an at-rule. *)
Inductive pnode : Type :=
| FunctionNode (l : loc) (name : jsstring) (children : list pnode)
| StringNode (l : loc) (value : jsstring)
| OtherNode (type : jsstring) (l : loc) (text : jsstring).

Inductive prelude : Type :=
| AtrulePrelude (children : list pnode)
| RawPrelude (text : jsstring).

(** Nodes of a style sheet and of a block.  A [Rule] keeps its selector
    and a [Declaration] its value as text: index.ts hands them to css-tree
    untouched. *)
Inductive node : Type :=
| Atrule (l : loc) (name : jsstring) (prelude : option prelude)
         (block : option (list node))
| Rule (l : loc) (prelude : jsstring) (block : list node)
| Declaration (l : loc) (important : importance) (property : jsstring)
              (value : jsstring)
| Raw (l : loc) (text : jsstring).

Definition StyleSheet := list node.

Definition pnode_loc (n : pnode) : loc :=
  match n with
  | FunctionNode l _ _ => l
  | StringNode l _ => l
  | OtherNode _ l _ => l
  end.

(** The error css-tree's parser reports through [onParseError]. *)
Record SyntaxError : Type := {
  se_message : jsstring;
  se_line : N;
  se_column : N
}.

(** [lexer.matchDeclaration(node).error]; [me_text] is the error as a
    template literal prints it. *)
Record MatchError : Type := {
  me_name : jsstring;
  me_rawMessage : option jsstring;
  me_message : option jsstring;
  me_line : option N;
  me_column : option N;
  me_text : jsstring
}.

(** What the [errors] array holds: the parser's error objects, then
    strings. *)
Inductive errorEntry : Type :=
| ParseError (e : SyntaxError)
| Message (s : jsstring).

Record Output : Type := {
  errors : list errorEntry;
  warnings : list jsstring;
  transformed : jsstring
}.

(** *** The walk that pushes to [errors] and [warnings]

    A step returns its value with the errors and the warnings it pushed, or
    throws. *)
Definition walk (A : Type) : Type :=
  result (A * (list jsstring * list jsstring)).

Definition retW {A} (a : A) : walk A := Ok (a, ([], [])).

Definition bindW {A B} (x : walk A) (f : A -> walk B) : walk B :=
  match x with
  | Throw e => Throw e
  | Ok (a, (e1, w1)) =>
    match f a with
    | Throw e => Throw e
    | Ok (b, (e2, w2)) => Ok (b, (e1 ++ e2, w1 ++ w2))
    end
  end.

Definition pushError (s : jsstring) : walk unit := Ok (tt, ([s], [])).
Definition pushWarning (s : jsstring) : walk unit := Ok (tt, ([], [s])).

Notation "x <~ c1 ;; c2" := (bindW c1 (fun x => c2))
  (at level 61, c1 at next level, right associativity).

(** [forEach] over children that may be replaced in place. *)
Definition mapW {A B} (f : A -> walk B) : list A -> walk (list B) :=
  fix go (l : list A) : walk (list B) :=
    match l with
    | [] => retW []
    | x :: xs => y <~ f x ;; ys <~ go xs ;; retW (y :: ys)
    end.

Definition showLoc (l : loc) : jsstring :=
  showN (line l) ++ js ":" ++ showN (column l).

(** The callback of [node.children.forEach] (index.ts 176-195). *)
Definition fixRegexp (preludeFunction : pnode) : walk pnode :=
  match preludeFunction with
  | FunctionNode l name children =>
    if negb (str_eqb name (js "regexp")) then retW preludeFunction
    else
      match children with
      | [] => Throw TypeError
      | regexp :: rest =>
        let loc := showLoc (pnode_loc regexp) in
        match regexp with
        | StringNode rl value =>
          let escaped := escapeCSSRegExp value in
          _ <~ (if negb (str_eqb value escaped)
                then pushWarning (loc ++ js ": Fixed escaping in regexp("
                                      ++ value ++ js ")")
                else retW tt) ;;
          retW (FunctionNode l name (StringNode rl escaped :: rest))
        | _ =>
          _ <~ pushError (loc ++ js ": regexp() argument must be a String") ;;
          retW preludeFunction
        end
      end
  | _ => retW preludeFunction
  end.

Definition isDocumentRule (name : jsstring) : bool :=
  str_eqb name (js "-moz-document") || str_eqb name (js "document").

(** The walk with [visit: "AtrulePrelude"] (index.ts 167-197). *)
Fixpoint fixNode (n : node) : walk node :=
  match n with
  | Atrule l name p block =>
    p' <~ match p with
          | Some (AtrulePrelude children) =>
            if negb (isDocumentRule name) then retW p
            else children' <~ mapW fixRegexp children ;;
                 retW (Some (AtrulePrelude children'))
          | _ => retW p
          end ;;
    block' <~ match block with
              | Some children =>
                children' <~ mapW fixNode children ;; retW (Some children')
              | None => retW None
              end ;;
    retW (Atrule l name p' block')
  | Rule l p block =>
    block' <~ mapW fixNode block ;; retW (Rule l p block')
  | _ => retW n
  end.

(** The walk that marks all declarations as [!important]
    (index.ts 155-160). *)
Fixpoint markImportant (n : node) : node :=
  match n with
  | Atrule l name p block =>
    Atrule l name p (option_map (map markImportant) block)
  | Rule l p block => Rule l p (map markImportant block)
  | Declaration l _ property value =>
    Declaration l (Important true) property value
  | Raw _ _ => n
  end.

Definition stringifyError (e_line e_column : N)
    (e_property e_message e_error : jsstring) : jsstring :=
  showN e_line ++ js ":" ++ showN e_column ++ js " (" ++ e_property
  ++ js "): " ++ e_message ++ [c_lf] ++ e_error.

Section CssTree.
(** css-tree: [parse] with the errors handed to [onParseError],
    [lexer.matchDeclaration(node).error] and [generate]. *)
Variable parse : jsstring -> StyleSheet * list SyntaxError.
Variable matchDeclaration : node -> option MatchError.
Variable generate : StyleSheet -> jsstring.

(** The [enter] callback of the first walk (index.ts 113-145). *)
Definition reportDeclaration (n : node) : list errorEntry :=
  match n with
  | Declaration l _ property _ =>
    match matchDeclaration n with
    | None => []
    | Some error =>
      let message :=
        if truthy_str (me_rawMessage error) then me_rawMessage error
        else if truthy_str (me_message error) then me_message error
        else None in
      if negb (str_eqb (me_name error) (js "SyntaxMatchError"))
         && negb (str_eqb (me_name error) (js "SyntaxReferenceError"))
      then []
      else
        let message :=
          match message with
          | Some m =>
            if str_eqb m (js "Mismatch")
            then js "Invalid value for `" ++ property ++ js "`"
            else m
          | None => me_text error
          end in
        let e_line :=
          if truthy_num (me_line error)
          then match me_line error with Some x => x | None => line l end
          else line l in
        let e_column :=
          if truthy_num (me_column error)
          then match me_column error with Some x => x | None => column l end
          else column l in
        [Message (stringifyError e_line e_column property message
                                 (me_text error))]
    end
  | _ => []
  end.

(** The walk with [visit: "Declaration"] (index.ts 111-146). *)
Fixpoint validateNode (n : node) : list errorEntry :=
  match n with
  | Atrule _ _ _ block =>
    match block with
    | Some children => flat_map validateNode children
    | None => []
    end
  | Rule _ _ block => flat_map validateNode block
  | Declaration _ _ _ _ => reportDeclaration n
  | Raw _ _ => []
  end.

(** The [errors] array when the check of line 148 is reached. *)
Definition collectErrors (css : jsstring) : list errorEntry :=
  let '(ast, parseErrors) := parse css in
  map ParseError parseErrors ++ flat_map validateNode ast.

Definition validateAndTransformCSS (css : jsstring) : result Output :=
  let '(ast, _) := parse css in
  let errors := collectErrors css in
  match errors with
  | _ :: _ => Ok {| errors := errors; warnings := []; transformed := css |}
  | [] =>
    match mapW fixNode (map markImportant ast) with
    | Throw e => Throw e
    | Ok (ast', (pushed, warnings)) =>
      Ok {| errors := errors ++ map Message pushed;
            warnings := warnings;
            transformed := generate ast' |}
    end
  end.

(** What [main] does with one document between fetching and writing
    (index.ts 263-270). *)
Definition transformStyle (rawStyle : jsstring) (metadata : Metadata)
    : result Output :=
  css <- assignVariables rawStyle metadata ;;
  validateAndTransformCSS css.
End CssTree.

(** ** The specification's own notions *)

(** Literal global replacement, as section 4.1 words it: every occurrence
    of [find] (leftmost first, not overlapping) gives way to exactly the
    code units of [value]. *)
Fixpoint literal_go (find value : jsstring) (skip : nat) (s : jsstring)
    : jsstring :=
  match skip with
  | S k =>
    match s with
    | [] => []
    | _ :: s' => literal_go find value k s'
    end
  | O =>
    match s with
    | [] => []
    | c :: s' =>
      if startsWith find s
      then value ++ literal_go find value (List.length find - 1) s'
      else c :: literal_go find value 0 s'
    end
  end.

Definition literalReplaceAll (str find value : jsstring) : jsstring :=
  literal_go find value 0 str.

(** A decimal numeral: the number its digits denote in base 10. *)
Definition decimalValue (digits : jsstring) : Z :=
  fold_left (fun acc c => (10 * acc + (Z.of_N c - 48))%Z) digits 0%Z.

(** The text begins with a number that [parseInt] can read: white space
    and one sign may come first, then a decimal digit. *)
Definition beginsWithNumber (s : jsstring) : bool :=
  match trimStart s with
  | c :: rest =>
    if (c =? 45)%N || (c =? 43)%N
    then match rest with d :: _ => isDigit d | [] => false end
    else isDigit c
  | [] => false
  end.

(** [f] is a child of the prelude of a [document] or [-moz-document]
    at-rule somewhere in [n]. *)
Inductive PreludeChild (f : pnode) : node -> Prop :=
| pc_here l name children block :
    isDocumentRule name = true ->
    In f children ->
    PreludeChild f (Atrule l name (Some (AtrulePrelude children)) block)
| pc_atrule l name p children n :
    In n children ->
    PreludeChild f n ->
    PreludeChild f (Atrule l name p (Some children))
| pc_rule l p children n :
    In n children ->
    PreludeChild f n ->
    PreludeChild f (Rule l p children).

Definition InDocumentPrelude (f : pnode) (ast : StyleSheet) : Prop :=
  exists n, In n ast /\ PreludeChild f n.

(** A [regexp()] call whose first argument is not a string literal. *)
Definition isStringNode (n : pnode) : bool :=
  match n with StringNode _ _ => true | _ => false end.

Definition badRegexp (f : pnode) (arg : pnode) : Prop :=
  exists l rest,
    f = FunctionNode l (js "regexp") (arg :: rest) /\ isStringNode arg = false.

(** Every [regexp()] call the third walk looks at has an argument. *)
Definition hasArgument (f : pnode) : bool :=
  match f with
  | FunctionNode _ name [] => negb (str_eqb name (js "regexp"))
  | _ => true
  end.

Fixpoint callsHaveArgument (n : node) : bool :=
  match n with
  | Atrule _ name p block =>
    match p with
    | Some (AtrulePrelude children) =>
      if isDocumentRule name then forallb hasArgument children else true
    | _ => true
    end
    && match block with
       | Some children => forallb callsHaveArgument children
       | None => true
       end
  | Rule _ _ block => forallb callsHaveArgument block
  | _ => true
  end.

(** Every declaration carries the flag [important = true]. *)
Fixpoint allImportant (n : node) : bool :=
  match n with
  | Atrule _ _ _ block =>
    match block with
    | Some children => forallb allImportant children
    | None => true
    end
  | Rule _ _ block => forallb allImportant block
  | Declaration _ (Important true) _ _ => true
  | Declaration _ _ _ _ => false
  | Raw _ _ => true
  end.

(** ** css-tree's serializer on this tree type

    [csstree.generate] writes the chunks of the nodes one after the other
    with no white space of its own: an at-rule as [@name], a space and the
    prelude when there is one, then the block or a semicolon; a block as
    its children between braces, with a semicolon after a declaration
    that another child follows; a declaration as [property:value],
    followed by [!important] when the flag is [true] and by [!] and the
    text when the flag is a text; a function as its name and its
    children between parentheses; a string by its value. *)
Module Generator.

Fixpoint generate_pnode (n : pnode) : jsstring :=
  match n with
  | FunctionNode _ name children =>
    name ++ js "(" ++ flat_map generate_pnode children ++ js ")"
  | StringNode _ value => value
  | OtherNode _ _ text => text
  end.

Fixpoint generate_node (n : node) : jsstring :=
  let block :=
    fix block (l : list node) : jsstring :=
      match l with
      | [] => []
      | x :: xs =>
        generate_node x
        ++ match x, xs with
           | Declaration _ _ _ _, _ :: _ => js ";"
           | _, _ => []
           end
        ++ block xs
      end in
  match n with
  | Atrule _ name p b =>
    js "@" ++ name
    ++ match p with
       | Some (AtrulePrelude children) =>
         js " " ++ flat_map generate_pnode children
       | Some (RawPrelude text) => js " " ++ text
       | None => []
       end
    ++ match b with
       | Some children => js "{" ++ block children ++ js "}"
       | None => js ";"
       end
  | Rule _ p b => p ++ js "{" ++ block b ++ js "}"
  | Declaration _ important property value =>
    property ++ js ":" ++ value
    ++ match important with
       | Important true => js "!important"
       | Important false => []
       | ImportantText s => js "!" ++ s
       end
  | Raw _ text => text
  end.

Definition generate (ast : StyleSheet) : jsstring :=
  flat_map generate_node ast.

End Generator.


(** ** Sample documents

    css-tree is not part of the sources.  The trees below are written by
    hand for a few small documents, with a lexer that knows the [color]
    property, so that the functions of the previous section can be
    run. *)
Module Sample.

Definition at_ (l c : N) : loc := {| line := l; column := c |}.

(** [a{color:red;}] *)
Definition doc_red : jsstring := js "a{color:red;}".
Definition tree_red : StyleSheet :=
  [Rule (at_ 1 1) (js "a")
        [Declaration (at_ 1 3) (Important false) (js "color") (js "red")]].
Definition tree_red_important : StyleSheet :=
  [Rule (at_ 1 1) (js "a")
        [Declaration (at_ 1 3) (Important true) (js "color") (js "red")]].

(** [a{color:5px;}] *)
Definition doc_5px : jsstring := js "a{color:5px;}".
Definition tree_5px : StyleSheet :=
  [Rule (at_ 1 1) (js "a")
        [Declaration (at_ 1 3) (Important false) (js "color") (js "5px")]].

(** [@-moz-document regexp(x){a{color:red}}] *)
Definition doc_regexp_ident : jsstring :=
  js "@-moz-document regexp(x){a{color:red}}".
Definition call_regexp_ident : pnode :=
  FunctionNode (at_ 1 16) (js "regexp")
               [OtherNode (js "Identifier") (at_ 1 23) (js "x")].
Definition tree_regexp_ident : StyleSheet :=
  [Atrule (at_ 1 1) (js "-moz-document")
          (Some (AtrulePrelude [call_regexp_ident]))
          (Some [Rule (at_ 1 26) (js "a")
                      [Declaration (at_ 1 28) (Important false)
                                   (js "color") (js "red")]])].

(** [@-moz-document regexp('a\d'){a{color:red}}] *)
Definition doc_regexp_fix : jsstring :=
  js "@-moz-document regexp('a\d'){a{color:red}}".
Definition tree_regexp_fix : StyleSheet :=
  [Atrule (at_ 1 1) (js "-moz-document")
          (Some (AtrulePrelude
                   [FunctionNode (at_ 1 16) (js "regexp")
                                 [StringNode (at_ 1 23) (js "'a\d'")]]))
          (Some [Rule (at_ 1 30) (js "a")
                      [Declaration (at_ 1 32) (Important false)
                                   (js "color") (js "red")]])].

Definition parse (css : jsstring) : StyleSheet * list SyntaxError :=
  if str_eqb css doc_red then (tree_red, [])
  else if str_eqb css doc_5px then (tree_5px, [])
  else if str_eqb css doc_regexp_ident then (tree_regexp_ident, [])
  else if str_eqb css doc_regexp_fix then (tree_regexp_fix, [])
  else ([], [{| se_message := js "Unexpected input";
                se_line := 1; se_column := 1 |}]).

Definition mismatch : MatchError :=
  {| me_name := js "SyntaxMatchError";
     me_rawMessage := Some (js "Mismatch");
     me_message := Some (js "Mismatch");
     me_line := None;
     me_column := None;
     me_text := js "SyntaxMatchError: Mismatch" |}.

Definition matchDeclaration (n : node) : option MatchError :=
  match n with
  | Declaration _ _ property value =>
    if str_eqb property (js "color")
    then if oneOf value [js "red"; js "green"; js "blue"]
         then None else Some mismatch
    else None
  | _ => None
  end.

Definition generate (ast : StyleSheet) : jsstring :=
  Generator.generate ast.

(** A [uso] style with a text variable whose default holds dollar signs:
    [@var text price "Price" $$5]. *)
Definition var_price : MetaVariable :=
  {| type := js "text"; label := js "Price"; name := js "price";
     value := None; default := js "$$5"; options := None; units := None |}.
Definition meta_price : Metadata :=
  {| preprocessor := Some (js "uso");
     vars := Some [(js "price", var_price)] |}.
Definition doc_price : jsstring := js "a::after{content:'/*[[price]]*/'}".

(** A [select] variable with two options. *)
Definition opt_light : SelectVariableOption :=
  {| opt_name := js "light"; opt_label := js "Light";
     opt_value := js "#eee" |}.
Definition opt_dark : SelectVariableOption :=
  {| opt_name := js "dark"; opt_label := js "Dark";
     opt_value := js "#222" |}.
Definition var_theme : MetaVariable :=
  {| type := js "select"; label := js "Theme"; name := js "theme";
     value := None; default := js "dark";
     options := Some [opt_light; opt_dark]; units := None |}.
Definition var_theme_missing : MetaVariable :=
  {| type := js "dropdown"; label := js "Theme"; name := js "theme";
     value := None; default := js "sepia";
     options := Some [opt_light; opt_dark]; units := None |}.

(** [@-moz-document regexp(){a{color:red}}], known to a parser of its
    own. *)
Definition doc_regexp_empty : jsstring :=
  js "@-moz-document regexp(){a{color:red}}".
Definition call_regexp_empty : pnode :=
  FunctionNode (at_ 1 16) (js "regexp") [].
Definition tree_regexp_empty : StyleSheet :=
  [Atrule (at_ 1 1) (js "-moz-document")
          (Some (AtrulePrelude [call_regexp_empty]))
          (Some [Rule (at_ 1 25) (js "a")
                      [Declaration (at_ 1 27) (Important false)
                                   (js "color") (js "red")]])].
Definition parse_empty_call (css : jsstring) : StyleSheet * list SyntaxError :=
  if str_eqb css doc_regexp_empty then (tree_regexp_empty, [])
  else parse css.

(** A lexer that fails on every declaration with an error of another
    kind. *)
Definition matchDeclaration_other (n : node) : option MatchError :=
  match n with
  | Declaration _ _ _ _ =>
    Some {| me_name := js "Error";
            me_rawMessage := None;
            me_message := Some (js "Lexer matching doesn't applicable");
            me_line := None;
            me_column := None;
            me_text := js "Error: Lexer matching doesn't applicable" |}
  | _ => None
  end.

Definition meta_theme_missing : Metadata :=
  {| preprocessor := Some (js "uso");
     vars := Some [(js "price", var_price);
                   (js "theme", var_theme_missing)] |}.

Definition meta_default : Metadata :=
  {| preprocessor := Some (js "default"); vars := None |}.
Definition meta_absent : Metadata :=
  {| preprocessor := None; vars := None |}.

End Sample.

(** ** Auxiliary notions of the proofs *)

(** The replacement templates of the two [replace] calls. *)
Definition tmpl_escape : jsstring := js "$1\".
Definition tmpl_important : jsstring := js "$1 !important;" ++ [c_lf].
Definition suffix_important : jsstring := js " !important;" ++ [c_lf].

(** A replacement text without a dollar sign. *)
Definition plain (value : jsstring) : bool :=
  forallb (fun c => negb (c =? c_dollar)%N) value.

(** The error the third walk pushes for the argument [arg]. *)
Definition regexpMessage (arg : pnode) : jsstring :=
  showLoc (pnode_loc arg) ++ js ": regexp() argument must be a String".

(** From no position of [v] can the value of a declaration be read once
    [v] is followed by the importance marker. *)
Fixpoint blocked (v x : jsstring) : Prop :=
  lazyValue (v ++ suffix_important ++ x) = None
  /\ match v with
     | [] => True
     | _ :: v' => blocked v' x
     end.

(** No match of the declaration pattern starts inside [p] when [t]
    follows. *)
Fixpoint noMatch (p t : jsstring) : Prop :=
  match p with
  | [] => True
  | _ :: p' => re_declaration (p ++ t) = None /\ noMatch p' t
  end.

(** ** The driver (index.ts, [main]) as far as it computes on text *)

(** [Array.prototype.join] *)
Fixpoint join (sep : jsstring) (l : list jsstring) : jsstring :=
  match l with
  | [] => []
  | [x] => x
  | x :: xs => x ++ sep ++ join sep xs
  end.

(** [String.prototype.split("\n")] *)
Fixpoint splitLines (s : jsstring) : list jsstring :=
  match s with
  | [] => [[]]
  | c :: s' =>
    if (c =? c_lf)%N then [] :: splitLines s'
    else
      match splitLines s' with
      | l :: ls => (c :: l) :: ls
      | [] => [[c]]
      end
  end.

(** [String.prototype.trim]: white space and line terminators go, at both
    ends. *)
Definition trim (s : jsstring) : jsstring :=
  rev (trimStart (rev (trimStart s))).

(** The list of style URLs read from the [--user-styles] file
    (index.ts 241-247). *)
Definition styleUrls (text : jsstring) : list jsstring :=
  filter (fun url => (0 <? List.length (trim url))%nat) (splitLines text).

(** One line of the imports file, for the relative path [path.relative]
    gave (index.ts 301). *)
Definition importLine (relative : jsstring) : jsstring :=
  js "@import url(" ++ [c_dquote] ++ relative ++ [c_dquote] ++ js ");".

(** The text written to [--output-imports-file] (index.ts 295-308). *)
Definition importsFile (relatives : list jsstring) : jsstring :=
  join [c_lf] (map importLine relatives) ++ [c_lf].

Section Driver.
(** css-tree as before, and how [join] prints a parser error object. *)
Variable parse : jsstring -> StyleSheet * list SyntaxError.
Variable matchDeclaration : node -> option MatchError.
Variable generate : StyleSheet -> jsstring.
Variable showSyntaxError : SyntaxError -> jsstring.

Definition showEntry (e : errorEntry) : jsstring :=
  match e with
  | ParseError e => showSyntaxError e
  | Message s => s
  end.

(** What [main] does with one fetched style whose metadata parsed
    (index.ts 263-291): the text for [console.log], if any, and the text
    written to the style's file; or the error thrown. *)
Definition processStyle (filename rawStyle : jsstring) (metadata : Metadata)
    : result (option jsstring * jsstring) :=
  css <- assignVariables rawStyle metadata ;;
  out <- validateAndTransformCSS parse matchDeclaration generate css ;;
  match errors out with
  | _ :: _ =>
    Throw (Error (js "CSS Validation Errors: " ++ filename ++ [c_lf]
                  ++ join [c_lf] (map showEntry (errors out))))
  | [] =>
    Ok (match warnings out with
        | _ :: _ =>
          Some (js "CSS Validation Warnings: " ++ filename ++ [c_lf]
                ++ join [c_lf] (warnings out) ++ [c_lf])
        | [] => None
        end,
        transformed out)
  end.
End Driver.

(** ** Further notions of the properties *)

(** A line that [styleUrls] keeps: some code unit is no white space. *)
Definition nonBlank (url : jsstring) : bool :=
  existsb (fun c => negb (isWhiteSpace c)) url.

Definition noLineFeed (s : jsstring) : bool :=
  forallb (fun c => negb (c =? c_lf)%N) s.

(** No at-rule named [document] or [-moz-document] anywhere in [n]. *)
Fixpoint noDocumentRule (n : node) : bool :=
  match n with
  | Atrule _ name _ block =>
    negb (isDocumentRule name)
    && match block with
       | Some children => forallb noDocumentRule children
       | None => true
       end
  | Rule _ _ block => forallb noDocumentRule block
  | _ => true
  end.

(** The code units of [s] other than backslashes, in order. *)
Definition withoutBackslashes (s : jsstring) : jsstring :=
  filter (fun c => negb (c =? c_backslash)%N) s.

(** Unique variable names, as the keys of an object are. *)
Definition uniqueNames (vs : list (jsstring * MetaVariable)) : Prop :=
  NoDup (map fst vs).

(** The callback of [reduce], applied to the accumulator. *)
Definition reduceStep (vs : list (jsstring * MetaVariable))
    (acc : result jsstring) (name : jsstring) : result jsstring :=
  style <- acc ;; substituteVariable vs style name.

(** A result that is a value or a thrown [TypeError]. *)
Definition okOrTypeError {A} (r : result A) : Prop :=
  match r with
  | Ok _ => True
  | Throw e => e = TypeError
  end.

(** The two steps of the third walk at an at-rule: its prelude, then its
    block. *)
Definition fixPrelude (name : jsstring) (p : option prelude)
    : walk (option prelude) :=
  match p with
  | Some (AtrulePrelude children) =>
    if negb (isDocumentRule name) then retW p
    else children' <~ mapW fixRegexp children ;;
         retW (Some (AtrulePrelude children'))
  | _ => retW p
  end.

Definition fixBlock (block : option (list node)) : walk (option (list node)) :=
  match block with
  | Some children =>
    children' <~ mapW fixNode children ;; retW (Some children')
  | None => retW None
  end.

(** A [regexp()] call without an argument. *)
Definition emptyRegexp (f : pnode) : Prop :=
  exists l, f = FunctionNode l (js "regexp") [].

(** ** The reading of a color, in the words of the specification *)

(** The declarations of a tree in document order: position, property
    and value. *)
Fixpoint declarationsOf (n : node) : list (loc * jsstring * jsstring) :=
  match n with
  | Atrule _ _ _ block =>
    match block with
    | Some children => flat_map declarationsOf children
    | None => []
    end
  | Rule _ _ block => flat_map declarationsOf block
  | Declaration l _ property value => [(l, property, value)]
  | Raw _ _ => []
  end.

(** The triple of a 32-bit value: bits 16-23, 8-15 and 0-7 in decimal. *)
Definition rgbText (value : Z) : jsstring :=
  showZ ((value / 2 ^ 16) mod 2 ^ 8) ++ js ", "
  ++ showZ ((value / 2 ^ 8) mod 2 ^ 8) ++ js ", "
  ++ showZ (value mod 2 ^ 8).

(** An optional sign in front of a numeral. *)
Definition signValue (sgn : jsstring) : option Z :=
  if str_eqb sgn [] then Some 1%Z
  else if str_eqb sgn (js "+") then Some 1%Z
  else if str_eqb sgn (js "-") then Some (-1)%Z
  else None.

(** A hexadecimal numeral: its digits and the number they denote. *)
Definition isHexDigit (c : N) : bool :=
  (isDigit c || (97 <=? c) && (c <=? 102) || (65 <=? c) && (c <=? 70))%N.

Definition hexDigitValue (c : N) : Z :=
  if isDigit c then (Z.of_N c - 48)%Z
  else if (97 <=? c)%N then (Z.of_N c - 87)%Z
  else (Z.of_N c - 55)%Z.

Definition hexValue (digits : jsstring) : Z :=
  fold_left (fun acc c => (16 * acc + hexDigitValue c)%Z) digits 0%Z.

(** A parse with decimal semantics only, as C5 words it: white space and
    a sign, then decimal digits, whatever the text begins with. *)
Definition parseDecimal (string : jsstring) : number :=
  let '(sign, str) := stripSign (trimStart string) in
  match readDigits 10 None str with
  | None => NaN
  | Some mathInt => toDouble (sign * mathInt)
  end.

(** A [dropdown] variable whose options are [null]. *)
Definition var_options_null : MetaVariable :=
  {| type := js "dropdown"; label := js "Theme"; name := js "theme";
     value := None; default := js "dark"; options := None; units := None |}.

(** * Properties *)

(** ** Strings *)

Lemma str_eqb_eq a b : str_eqb a b = true <-> a = b.
Proof.
  unfold str_eqb. destruct (list_eq_dec N.eq_dec a b); split; congruence.
Qed.

Lemma str_eqb_neq a b : str_eqb a b = false <-> a <> b.
Proof.
  unfold str_eqb. destruct (list_eq_dec N.eq_dec a b); split; congruence.
Qed.

Lemma str_eqb_refl a : str_eqb a a = true.
Proof. now apply str_eqb_eq. Qed.

Lemma startsWith_iff p s : startsWith p s = true <-> exists t, s = p ++ t.
Proof.
  revert s. induction p as [|a p IH]; intros s; simpl.
  - split; [exists s; reflexivity | reflexivity].
  - destruct s as [|b s].
    + split; [discriminate | intros [t H]; discriminate].
    + rewrite andb_true_iff, N.eqb_eq, IH. split.
      * intros [-> [t ->]]. now exists t.
      * intros [t H]. injection H as -> ->. split; [reflexivity | now exists t].
Qed.

Lemma includes_iff s p : includes s p = true <-> exists a b, s = a ++ p ++ b.
Proof.
  induction s as [|c s IH].
  - simpl. rewrite orb_false_r, startsWith_iff. split.
    + intros [t H]. now exists [], t.
    + intros [a [b H]]. destruct a; [now exists b | discriminate].
  - change (includes (c :: s) p)
      with (startsWith p (c :: s) || includes s p).
    rewrite orb_true_iff, startsWith_iff, IH. split.
    + intros [[t H] | [a [b H]]].
      * now exists [], t.
      * exists (c :: a), b. now rewrite H.
    + intros [a [b H]]. destruct a as [|c' a].
      * left. now exists b.
      * right. injection H as _ H. now exists a, b.
Qed.

Lemma includes_cons_false c s p :
  includes (c :: s) p = false ->
  startsWith p (c :: s) = false /\ includes s p = false.
Proof.
  change (includes (c :: s) p) with (startsWith p (c :: s) || includes s p).
  apply orb_false_elim.
Qed.

(** ** [escapeCSSRegExp] *)

Lemma escape_match c rest b :
  c <> c_backslash ->
  replace_go re_single_escape tmpl_escape b 0 (c :: c_backslash :: rest)
  = c :: c_backslash :: c_backslash
      :: replace_go re_single_escape tmpl_escape (c_backslash :: c :: b) 0 rest.
Proof.
  intros Hc. apply N.eqb_neq in Hc.
  cbn [replace_go re_single_escape]. rewrite Hc. reflexivity.
Qed.

Lemma escape_nomatch c s b :
  re_single_escape (c :: s) = None ->
  replace_go re_single_escape tmpl_escape b 0 (c :: s)
  = c :: replace_go re_single_escape tmpl_escape (c :: b) 0 s.
Proof.
  intros H. cbn [replace_go]. rewrite H. reflexivity.
Qed.

Lemma escape_nil b : replace_go re_single_escape tmpl_escape b 0 [] = [].
Proof. reflexivity. Qed.

(** With no pair of backslashes in [s], the scan of the regular expression
    and the position-wise reading of the specification agree, as soon as
    a backslash at the head of [s] has no character other than a backslash
    before it. *)
Lemma escape_scan_spec n : forall s prev b,
  (List.length s <= n)%nat ->
  includes s [c_backslash; c_backslash] = false ->
  (forall t, s = c_backslash :: t ->
             prev = None \/ prev = Some c_backslash) ->
  replace_go re_single_escape tmpl_escape b 0 s = doubleSingleEscapes prev s.
Proof.
  induction n as [|n IH]; intros s prev b Hlen Hinc Hhead.
  - destruct s; [reflexivity | simpl in Hlen; lia].
  - destruct s as [|c s]; [reflexivity|].
    apply includes_cons_false in Hinc as [Hsw Hinc].
    destruct (N.eq_dec c c_backslash) as [-> | Hc].
    + (* a backslash at the head: nothing to its left counts *)
      rewrite escape_nomatch.
      2:{ destruct s; reflexivity. }
      rewrite (IH s (Some c_backslash) (c_backslash :: b));
        [| simpl in Hlen; lia | assumption | intros; now right].
      destruct (Hhead s eq_refl) as [-> | ->]; reflexivity.
    + destruct s as [|d s].
      * cbn. apply N.eqb_neq in Hc. rewrite Hc. reflexivity.
      * destruct (N.eq_dec d c_backslash) as [-> | Hd].
        -- (* the pair matches; the next character is no backslash *)
           rewrite escape_match by assumption.
           apply includes_cons_false in Hinc as [Hsw' Hinc'].
           assert (Hnext : match s with
                           | e :: _ => negb (e =? c_backslash)%N
                           | [] => true
                           end = true).
           { destruct s as [|e s]; [reflexivity|].
             destruct (N.eqb_spec e c_backslash) as [-> | Hne];
               [vm_compute in Hsw'; discriminate | reflexivity]. }
           rewrite (IH s (Some c_backslash) (c_backslash :: c :: b));
             [| simpl in Hlen; lia | assumption | intros; now right].
           apply N.eqb_neq in Hc.
           cbn [doubleSingleEscapes]. rewrite Hc.
           cbn [negb andb]. change (c_backslash =? c_backslash)%N with true.
           rewrite Hnext. cbn [andb negb].
           destruct prev; reflexivity.
        -- rewrite escape_nomatch.
           2:{ simpl. apply N.eqb_neq in Hd. rewrite Hd.
               now rewrite andb_false_r. }
           rewrite (IH (d :: s) (Some c) (c :: b));
             [| simpl in Hlen |- *; lia | assumption
              | intros t Ht; injection Ht as Ht _; contradiction].
           apply N.eqb_neq in Hc.
           cbn [doubleSingleEscapes]. rewrite Hc. reflexivity.
Qed.

Lemma escapeCSSRegExp_cases (s : jsstring) :
  (includes s [c_backslash; c_backslash] = true
   <-> exists a b, s = a ++ [c_backslash; c_backslash] ++ b)
  /\ escapeCSSRegExp s
     = if includes s [c_backslash; c_backslash]
       then s
       else doubleSingleEscapes None s.
Proof.
  split; [apply includes_iff|].
  unfold escapeCSSRegExp.
  change (js "\\") with [c_backslash; c_backslash].
  destruct (includes s [c_backslash; c_backslash]) eqn:Hinc; [reflexivity|].
  unfold replaceGlobal.
  apply (escape_scan_spec (n := List.length s)); auto.
Qed.

(** C3. For every string: with a pair of backslashes somewhere in it,
    [escapeCSSRegExp] returns it as it is; otherwise it returns the string
    with one more backslash after every backslash that follows a character
    other than a backslash, and every other character unchanged. *)
Theorem escapeCSSRegExp_spec (s : jsstring) :
  (includes s [c_backslash; c_backslash] = true
   <-> exists a b, s = a ++ [c_backslash; c_backslash] ++ b)
  /\ escapeCSSRegExp s
     = if includes s [c_backslash; c_backslash]
       then s
       else doubleSingleEscapes None s.
Proof. apply escapeCSSRegExp_cases. Qed.

(** C4 (as the code has it). A backslash at position 0 has no character
    before it and stays single; inside the quotes of a string literal it
    is doubled; a string with a pair of backslashes comes back unchanged. *)
Theorem escapeCSSRegExp_examples :
  escapeCSSRegExp (js "\w") = js "\w"
  /\ escapeCSSRegExp (js "'\w'") = js "'\\w'"
  /\ escapeCSSRegExp (js "\\w") = js "\\w"
  /\ forall a b, escapeCSSRegExp (a ++ js "\\" ++ b) = a ++ js "\\" ++ b.
Proof.
  repeat split; try reflexivity.
  intros a b.
  destruct (escapeCSSRegExp_cases (a ++ js "\\" ++ b)) as [Hiff Heq].
  rewrite Heq.
  replace (includes (a ++ js "\\" ++ b) [c_backslash; c_backslash]) with true;
    [reflexivity|].
  symmetry. apply Hiff. now exists a, b.
Qed.

(** C4, the claim as it is written, fails: the two-character string is
    returned as it is. *)
Lemma escapeCSSRegExp_leading_backslash :
  escapeCSSRegExp (js "\w") <> js "\\w".
Proof. vm_compute. discriminate. Qed.

(** ** [colorHexToRGB] *)

Lemma land_255 x : Z.land x 255 = (x mod 2 ^ 8)%Z.
Proof. change 255%Z with (Z.ones 8). apply Z.land_ones. lia. Qed.

Lemma byte_of_shift x n :
  (0 <= n)%Z -> Z.land (Z.shiftr x n) 255 = ((x / 2 ^ n) mod 2 ^ 8)%Z.
Proof. intros Hn. rewrite land_255, Z.shiftr_div_pow2 by assumption. reflexivity. Qed.

Lemma isDigit_digitOf c :
  isDigit c = true -> digitOf 10 c = Some (Z.of_N c - 48)%Z.
Proof.
  unfold isDigit, digitOf. intros H. rewrite H.
  apply andb_true_iff in H as [H1 H2].
  apply N.leb_le in H1, H2.
  replace (Z.of_N c - 48 <? 10)%Z with true; [reflexivity|].
  symmetry. apply Z.ltb_lt. lia.
Qed.

Lemma not_isDigit_digitOf c : isDigit c = false -> digitOf 10 c = None.
Proof.
  unfold isDigit, digitOf. intros H. rewrite H.
  destruct ((97 <=? c)%N && (c <=? 122)%N) eqn:H1.
  - apply andb_true_iff in H1 as [H1 _]. apply N.leb_le in H1.
    replace (Z.of_N c - 87 <? 10)%Z with false; [reflexivity|].
    symmetry. apply Z.ltb_ge. lia.
  - destruct ((65 <=? c)%N && (c <=? 90)%N) eqn:H2; [|reflexivity].
    apply andb_true_iff in H2 as [H2 _]. apply N.leb_le in H2.
    replace (Z.of_N c - 55 <? 10)%Z with false; [reflexivity|].
    symmetry. apply Z.ltb_ge. lia.
Qed.

Lemma isDigit_not_space c : isDigit c = true -> isWhiteSpace c = false.
Proof.
  unfold isDigit, isWhiteSpace. intros H.
  apply andb_true_iff in H as [H1 H2]. apply N.leb_le in H1, H2.
  repeat match goal with
         | |- (_ || _) = false => apply orb_false_intro
         | |- (_ && _) = false => apply andb_false_iff
         end;
    try (apply N.eqb_neq; lia);
    try (left; apply N.leb_gt; lia); try (right; apply N.leb_gt; lia).
Qed.

(** A run of decimal digits is read in base 10. *)
Lemma readDigits_decimal digits : forall acc rest,
  forallb isDigit digits = true ->
  match rest with d :: _ => isDigit d = false | [] => True end ->
  readDigits 10 (Some acc) (digits ++ rest)
  = Some (fold_left (fun a c => (10 * a + (Z.of_N c - 48))%Z) digits acc).
Proof.
  induction digits as [|c digits IH]; intros acc rest Hd Hrest.
  - simpl. destruct rest as [|d rest]; [reflexivity|].
    simpl. now rewrite (not_isDigit_digitOf d Hrest).
  - simpl in Hd. apply andb_true_iff in Hd as [Hc Hd].
    simpl. rewrite (isDigit_digitOf c Hc). now apply IH.
Qed.

Lemma stripSign_digit c s :
  isDigit c = true -> stripSign (c :: s) = (1%Z, c :: s).
Proof.
  unfold isDigit, stripSign. intros H.
  apply andb_true_iff in H as [H1 H2]. apply N.leb_le in H1, H2.
  destruct (N.eqb_spec c 45); [lia|].
  destruct (N.eqb_spec c 43); [lia|]. reflexivity.
Qed.

Lemma stripPrefix_decimal s :
  startsWith (js "0x") s = false ->
  startsWith (js "0X") s = false ->
  stripPrefix s = (10%Z, s).
Proof.
  intros Hx HX. destruct s as [|c0 [|cx s]]; try reflexivity.
  unfold stripPrefix.
  destruct (N.eqb_spec c0 48) as [-> | Hc0]; [|reflexivity].
  destruct (N.eqb_spec cx 120) as [-> | Hcx];
    [vm_compute in Hx; discriminate|].
  destruct (N.eqb_spec cx 88) as [-> | HcX];
    [vm_compute in HX; discriminate|].
  reflexivity.
Qed.

Lemma stripPrefix_no_digit s :
  match s with d :: _ => isDigit d | [] => false end = false ->
  stripPrefix s = (10%Z, s).
Proof.
  intros H. destruct s as [|c0 [|cx s]]; try reflexivity.
  unfold stripPrefix.
  destruct (N.eqb_spec c0 48) as [-> | Hc0]; [discriminate | reflexivity].
Qed.

Lemma readDigits_no_digit s :
  match s with d :: _ => isDigit d | [] => false end = false ->
  readDigits 10 None s = None.
Proof.
  intros H. destruct s as [|d s]; [reflexivity|].
  simpl. now rewrite (not_isDigit_digitOf d H).
Qed.

Lemma parseInt_decimal digits rest :
  digits <> [] ->
  forallb isDigit digits = true ->
  match rest with d :: _ => isDigit d = false | [] => True end ->
  startsWith (js "0x") (digits ++ rest) = false ->
  startsWith (js "0X") (digits ++ rest) = false ->
  parseInt (digits ++ rest) = toDouble (decimalValue digits).
Proof.
  intros Hne Hd Hrest Hx HX.
  destruct digits as [|c digits]; [contradiction|].
  pose proof Hd as Hall.
  simpl in Hd. apply andb_true_iff in Hd as [Hc Hd].
  unfold parseInt.
  assert (Htrim : trimStart ((c :: digits) ++ rest) = (c :: digits) ++ rest).
  { simpl. now rewrite (isDigit_not_space c Hc). }
  rewrite Htrim.
  change ((c :: digits) ++ rest) with (c :: digits ++ rest) at 1.
  rewrite (stripSign_digit c _ Hc).
  change (c :: digits ++ rest) with ((c :: digits) ++ rest).
  rewrite (stripPrefix_decimal _ Hx HX).
  cbn [app readDigits]. rewrite (isDigit_digitOf c Hc).
  rewrite readDigits_decimal by assumption.
  rewrite Z.mul_1_l. unfold decimalValue. reflexivity.
Qed.

Lemma colorHexToRGB_bytes hexColor :
  colorHexToRGB hexColor = rgbText (ToInt32 (parseInt (substr1 hexColor))).
Proof.
  unfold colorHexToRGB, rgbText.
  rewrite !byte_of_shift by lia. rewrite land_255. reflexivity.
Qed.

Lemma parseInt_no_number rest :
  beginsWithNumber rest = false -> parseInt rest = NaN.
Proof.
  intros H. unfold parseInt. unfold beginsWithNumber in H.
  destruct (trimStart rest) as [|c t]; [reflexivity|].
  unfold stripSign.
  destruct (N.eqb_spec c 45) as [-> | Hm].
  - cbn [N.eqb orb] in H.
    rewrite (stripPrefix_no_digit _ H), (readDigits_no_digit _ H).
    reflexivity.
  - destruct (N.eqb_spec c 43) as [-> | Hp].
    + cbn [N.eqb orb] in H.
      rewrite (stripPrefix_no_digit _ H), (readDigits_no_digit _ H).
      reflexivity.
    + cbn [orb] in H.
      rewrite (stripPrefix_no_digit (c :: t) H),
              (readDigits_no_digit (c :: t) H).
      reflexivity.
Qed.

Lemma trimStart_app ws t :
  forallb isWhiteSpace ws = true ->
  match t with c :: _ => isWhiteSpace c = false | [] => True end ->
  trimStart (ws ++ t) = t.
Proof.
  intros Hws Ht. induction ws as [|w ws IH].
  - destruct t as [|c t]; [reflexivity|]. cbn [app trimStart]. now rewrite Ht.
  - cbn [forallb] in Hws. apply andb_true_iff in Hws as [Hw Hws].
    cbn [app trimStart]. rewrite Hw. now apply IH.
Qed.

Lemma signValue_cases sgn s :
  signValue sgn = Some s ->
  (sgn = [] /\ s = 1%Z) \/ (sgn = js "+" /\ s = 1%Z)
  \/ (sgn = js "-" /\ s = (-1)%Z).
Proof.
  unfold signValue.
  destruct (str_eqb sgn []) eqn:E0.
  { apply str_eqb_eq in E0. intros [= <-]. now left. }
  destruct (str_eqb sgn (js "+")) eqn:E1.
  { apply str_eqb_eq in E1. intros [= <-]. right. now left. }
  destruct (str_eqb sgn (js "-")) eqn:E2; [|discriminate].
  apply str_eqb_eq in E2. intros [= <-]. right. now right.
Qed.

(** The steps of [parseInt] on white space, a sign and a text that begins
    with a decimal digit. *)
Lemma parseInt_shape ws sgn s d body :
  forallb isWhiteSpace ws = true ->
  signValue sgn = Some s ->
  isDigit d = true ->
  parseInt (ws ++ sgn ++ d :: body)
  = match readDigits (fst (stripPrefix (d :: body))) None
                     (snd (stripPrefix (d :: body))) with
    | None => NaN
    | Some mathInt => toDouble (s * mathInt)
    end.
Proof.
  intros Hws Hs Hd.
  assert (Hsign : stripSign (sgn ++ d :: body) = (s, d :: body)
                  /\ match sgn ++ d :: body with
                     | c :: _ => isWhiteSpace c = false
                     | [] => True
                     end).
  { apply signValue_cases in Hs as [[-> ->] | [[-> ->] | [-> ->]]].
    - split; [apply (stripSign_digit d body Hd)|].
      now apply isDigit_not_space.
    - split; reflexivity.
    - split; reflexivity. }
  destruct Hsign as [Hsign Hhead].
  unfold parseInt. rewrite (trimStart_app _ _ Hws Hhead), Hsign.
  destruct (stripPrefix (d :: body)) as [R str]. reflexivity.
Qed.

Lemma isHexDigit_digitOf c :
  isHexDigit c = true -> digitOf 16 c = Some (hexDigitValue c).
Proof.
  unfold isHexDigit, digitOf, hexDigitValue, isDigit. intros H.
  destruct ((48 <=? c)%N && (c <=? 57)%N) eqn:E1.
  - apply andb_true_iff in E1 as [H1 H2]. apply N.leb_le in H1, H2.
    replace (Z.of_N c - 48 <? 16)%Z with true; [reflexivity|].
    symmetry. apply Z.ltb_lt. lia.
  - cbn [orb] in H.
    destruct ((97 <=? c)%N && (c <=? 102)%N) eqn:E2.
    + apply andb_true_iff in E2 as [H1 H2]. rewrite H1.
      apply N.leb_le in H1, H2.
      replace (c <=? 122)%N with true by (symmetry; apply N.leb_le; lia).
      cbn [andb].
      replace (Z.of_N c - 87 <? 16)%Z with true; [reflexivity|].
      symmetry. apply Z.ltb_lt. lia.
    + cbn [orb] in H. apply andb_true_iff in H as [H1 H2].
      apply N.leb_le in H1, H2.
      replace (97 <=? c)%N with false by (symmetry; apply N.leb_gt; lia).
      cbn [andb].
      replace ((65 <=? c)%N && (c <=? 90)%N) with true.
      * replace (Z.of_N c - 55 <? 16)%Z with true; [reflexivity|].
        symmetry. apply Z.ltb_lt. lia.
      * symmetry. apply andb_true_iff. split; apply N.leb_le; lia.
Qed.

Lemma not_isHexDigit_digitOf c : isHexDigit c = false -> digitOf 16 c = None.
Proof.
  unfold isHexDigit, digitOf, isDigit. intros H.
  apply orb_false_elim in H as [H H3]. apply orb_false_elim in H as [H1 H2].
  rewrite H1.
  destruct ((97 <=? c)%N && (c <=? 122)%N) eqn:E2.
  - apply andb_true_iff in E2 as [Ha Hb]. rewrite Ha in H2. cbn [andb] in H2.
    apply N.leb_le in Ha. apply N.leb_gt in H2.
    replace (Z.of_N c - 87 <? 16)%Z with false; [reflexivity|].
    symmetry. apply Z.ltb_ge. lia.
  - destruct ((65 <=? c)%N && (c <=? 90)%N) eqn:E3; [|reflexivity].
    apply andb_true_iff in E3 as [Ha Hb]. rewrite Ha in H3. cbn [andb] in H3.
    apply N.leb_le in Ha. apply N.leb_gt in H3.
    replace (Z.of_N c - 55 <? 16)%Z with false; [reflexivity|].
    symmetry. apply Z.ltb_ge. lia.
Qed.

Lemma readDigits_hex digits : forall acc rest,
  forallb isHexDigit digits = true ->
  match rest with d :: _ => isHexDigit d = false | [] => True end ->
  readDigits 16 acc (digits ++ rest)
  = match digits with
    | [] => acc
    | _ :: _ =>
      Some (fold_left (fun a c => (16 * a + hexDigitValue c)%Z) digits
                      match acc with Some a => a | None => 0%Z end)
    end.
Proof.
  induction digits as [|c digits IH]; intros acc rest Hd Hrest.
  - cbn [app]. destruct rest as [|d rest]; [reflexivity|].
    cbn [readDigits]. now rewrite (not_isHexDigit_digitOf d Hrest).
  - cbn [forallb] in Hd. apply andb_true_iff in Hd as [Hc Hd].
    cbn [app readDigits]. rewrite (isHexDigit_digitOf c Hc).
    rewrite (IH _ rest Hd Hrest). destruct digits; reflexivity.
Qed.

(** C5 (as the code has it). [colorHexToRGB] drops the first character
    and reads the remainder as [parseInt] without a radix does: white
    space and one sign are skipped; a decimal numeral is read in base
    10, but after [0x] or [0X] the digits are read in base 16; a
    remainder with no number gives no number, which counts as 0.  Red,
    green and blue are bits 16-23, 8-15 and 0-7 of the 32-bit value,
    printed in decimal as [R, G, B], each in 0..255. *)
Theorem colorHexToRGB_reads_parseInt :
  (forall (c : N) (ws sgn digits tail : jsstring) (s : Z),
      forallb isWhiteSpace ws = true ->
      signValue sgn = Some s ->
      digits <> [] ->
      forallb isDigit digits = true ->
      match tail with d :: _ => isDigit d = false | [] => True end ->
      startsWith (js "0x") (digits ++ tail) = false ->
      startsWith (js "0X") (digits ++ tail) = false ->
      colorHexToRGB (c :: ws ++ sgn ++ digits ++ tail)
      = rgbText (ToInt32 (toDouble (s * decimalValue digits))))
  /\ (forall (c x : N) (ws sgn digits tail : jsstring) (s : Z),
      forallb isWhiteSpace ws = true ->
      signValue sgn = Some s ->
      x = 120%N \/ x = 88%N ->
      digits <> [] ->
      forallb isHexDigit digits = true ->
      match tail with d :: _ => isHexDigit d = false | [] => True end ->
      colorHexToRGB (c :: ws ++ sgn ++ 48%N :: x :: digits ++ tail)
      = rgbText (ToInt32 (toDouble (s * hexValue digits))))
  /\ (forall (c x : N) (ws sgn tail : jsstring) (s : Z),
      forallb isWhiteSpace ws = true ->
      signValue sgn = Some s ->
      x = 120%N \/ x = 88%N ->
      match tail with d :: _ => isHexDigit d = false | [] => True end ->
      colorHexToRGB (c :: ws ++ sgn ++ 48%N :: x :: tail) = js "0, 0, 0")
  /\ (forall (c : N) (rest : jsstring),
      beginsWithNumber rest = false ->
      colorHexToRGB (c :: rest) = js "0, 0, 0")
  /\ colorHexToRGB [] = js "0, 0, 0"
  /\ (forall hexColor : jsstring,
      exists r g b : Z,
        (0 <= r <= 255 /\ 0 <= g <= 255 /\ 0 <= b <= 255)%Z
        /\ colorHexToRGB hexColor
           = showZ r ++ js ", " ++ showZ g ++ js ", " ++ showZ b).
Proof.
  split; [|split; [|split; [|split; [|split]]]].
  - intros c ws sgn digits tail s Hws Hs Hne Hd Htail Hx HX.
    rewrite colorHexToRGB_bytes. cbn [substr1 tl].
    destruct digits as [|d digits]; [contradiction|].
    pose proof Hd as Hall. cbn [forallb] in Hd.
    apply andb_true_iff in Hd as [Hd0 Hd].
    cbn [app]. rewrite (parseInt_shape _ _ d (digits ++ tail) Hws Hs Hd0).
    change (d :: digits ++ tail) with ((d :: digits) ++ tail).
    rewrite (stripPrefix_decimal _ Hx HX). cbn [fst snd app readDigits].
    rewrite (isDigit_digitOf d Hd0), readDigits_decimal by assumption.
    reflexivity.
  - intros c x ws sgn digits tail s Hws Hs Hxx Hne Hd Htail.
    rewrite colorHexToRGB_bytes. cbn [substr1 tl].
    rewrite (parseInt_shape _ _ 48%N (x :: digits ++ tail) Hws Hs eq_refl).
    assert (Hp : stripPrefix (48%N :: x :: digits ++ tail)
                 = (16%Z, digits ++ tail))
      by (destruct Hxx as [-> | ->]; reflexivity).
    rewrite Hp. cbn [fst snd].
    rewrite (readDigits_hex digits None tail Hd Htail).
    destruct digits; [contradiction | reflexivity].
  - intros c x ws sgn tail s Hws Hs Hxx Htail.
    rewrite colorHexToRGB_bytes. cbn [substr1 tl].
    rewrite (parseInt_shape _ _ 48%N (x :: tail) Hws Hs eq_refl).
    assert (Hp : stripPrefix (48%N :: x :: tail) = (16%Z, tail))
      by (destruct Hxx as [-> | ->]; reflexivity).
    rewrite Hp. cbn [fst snd].
    pose proof (readDigits_hex [] None tail eq_refl Htail) as Hr.
    cbn [app] in Hr. now rewrite Hr.
  - intros c rest H. rewrite colorHexToRGB_bytes. cbn [substr1 tl].
    now rewrite (parseInt_no_number _ H).
  - reflexivity.
  - intros hexColor. rewrite colorHexToRGB_bytes. unfold rgbText.
    set (value := ToInt32 (parseInt (substr1 hexColor))).
    exists ((value / 2 ^ 16) mod 2 ^ 8)%Z, ((value / 2 ^ 8) mod 2 ^ 8)%Z,
           (value mod 2 ^ 8)%Z.
    pose proof (Z.mod_pos_bound (value / 2 ^ 16) (2 ^ 8) eq_refl).
    pose proof (Z.mod_pos_bound (value / 2 ^ 8) (2 ^ 8) eq_refl).
    pose proof (Z.mod_pos_bound value (2 ^ 8) eq_refl).
    repeat split; lia.
Qed.

Lemma colorHexToRGB_reads_parseInt_witness :
  colorHexToRGB (js "#123456") = js "1, 226, 64"
  /\ colorHexToRGB (js "# -0Xff00ffzz") = js "0, 255, 1"
  /\ colorHexToRGB (js "#0xg") = js "0, 0, 0"
  /\ colorHexToRGB (js "#ffffff") = js "0, 0, 0".
Proof.
  destruct colorHexToRGB_reads_parseInt as (Hdec & Hhex & Hnone & Hnan & _).
  split; [|split; [|split]].
  - exact (Hdec 35%N [] [] (js "123456") [] 1%Z eq_refl eq_refl
                ltac:(discriminate) eq_refl I eq_refl eq_refl).
  - exact (Hhex 35%N 88%N (js " ") (js "-") (js "ff00ff") (js "zz") (-1)%Z
                eq_refl eq_refl (or_intror eq_refl) ltac:(discriminate)
                eq_refl eq_refl).
  - exact (Hnone 35%N 120%N [] [] (js "g") 1%Z eq_refl eq_refl
                 (or_introl eq_refl) eq_refl).
  - exact (Hnan 35%N (js "ffffff") eq_refl).
Defined.

(** C5, the claim as it is written, fails: after [0x] the remainder is
    read in base 16, where a parse with decimal semantics reads the
    numeral 0. *)
Lemma colorHexToRGB_hex_prefix :
  colorHexToRGB (js "#0x10") = js "0, 0, 16"
  /\ rgbText (ToInt32 (parseDecimal (substr1 (js "#0x10")))) = js "0, 0, 0"
  /\ colorHexToRGB (js "#0x10")
     <> rgbText (ToInt32 (parseDecimal (substr1 (js "#0x10")))).
Proof.
  split; [vm_compute; reflexivity|].
  split; [vm_compute; reflexivity|].
  vm_compute. discriminate.
Qed.

(** C10. When the text after the first character does not begin with a
    number (after white space and a sign, no decimal digit comes), the
    parse gives no number and [colorHexToRGB] returns [0, 0, 0],
    whatever the first character is. *)
Theorem colorHexToRGB_not_a_number (c : N) (rest : jsstring) :
  beginsWithNumber rest = false ->
  parseInt rest = NaN
  /\ colorHexToRGB (c :: rest) = js "0, 0, 0".
Proof.
  intros H. pose proof (parseInt_no_number _ H) as Hnan.
  split; [assumption|].
  rewrite colorHexToRGB_bytes. cbn [substr1 tl]. now rewrite Hnan.
Qed.

Lemma colorHexToRGB_not_a_number_witness :
  parseInt (js "ffffff") = NaN
  /\ colorHexToRGB (js "#ffffff") = js "0, 0, 0".
Proof.
  apply (colorHexToRGB_not_a_number 35%N (js "ffffff")). reflexivity.
Defined.

(** ** Variable resolver *)

(** The text handed to [new RegExp] denotes the literal code units of
    [find]: this is why [replaceAll] is written over [re_literal]. *)
Lemma subst_escape_special matched before after :
  getSubstitution matched before after [] (js "\$&") = c_backslash :: matched.
Proof. cbn. now rewrite app_nil_r. Qed.

Lemma backslash_special : regExpSpecial c_backslash = true.
Proof. reflexivity. Qed.

Lemma literalPattern_escape_go s : forall b,
  literalPattern (replace_go re_special (js "\$&") b 0 s) = Some s.
Proof.
  induction s as [|c s IH]; intros b; [reflexivity|].
  cbn [replace_go re_special].
  destruct (regExpSpecial c) eqn:Hc.
  - rewrite subst_escape_special. cbn [firstn app literalPattern].
    change (c_backslash =? c_backslash)%N with true. cbv iota.
    rewrite Hc, IH. reflexivity.
  - cbn [literalPattern].
    destruct (N.eqb_spec c c_backslash) as [-> | Hb].
    + rewrite backslash_special in Hc. discriminate.
    + rewrite Hc, IH. reflexivity.
Qed.

(** X3. Whatever characters [find] holds, the pattern text built from it
    uses no regular expression syntax and reads back as [find]: the
    placeholder is matched literally. *)
Lemma literalPattern_escapeRegExp find :
  literalPattern (escapeRegExp find) = Some find.
Proof. apply literalPattern_escape_go. Qed.

Lemma getSubstitution_plain matched before after caps template :
  plain template = true ->
  getSubstitution matched before after caps template = template.
Proof.
  induction template as [|c t IH]; intros H; [reflexivity|].
  simpl in H. apply andb_true_iff in H as [Hc Ht].
  cbn [getSubstitution]. rewrite Hc, IH by assumption. reflexivity.
Qed.

Lemma replace_plain_literal str find value :
  find <> [] ->
  plain value = true ->
  replaceAll str find value = literalReplaceAll str find value.
Proof.
  intros Hne Hplain. unfold replaceAll, literalReplaceAll, replaceGlobal.
  generalize (@nil N) at 1. generalize 0%nat.
  induction str as [|c s IH]; intros k b.
  - destruct k; cbn [replace_go literal_go]; [|reflexivity].
    destruct find; [contradiction | reflexivity].
  - destruct k as [|k]; cbn [replace_go literal_go]; [|apply IH].
    assert (E : re_literal find (c :: s)
                = if startsWith find (c :: s)
                  then Some (List.length find, []) else None)
      by reflexivity.
    rewrite E. clear E.
    destruct (startsWith find (c :: s)).
    + rewrite getSubstitution_plain by assumption.
      destruct find as [|f find]; [contradiction|].
      cbn [List.length].
      replace (S (List.length find) - 1)%nat with (List.length find) by lia.
      now rewrite IH.
    + now rewrite IH.
Qed.


(** X2. With a value that holds no dollar sign, [replaceAll] is the
    literal replacement: every occurrence of [find], leftmost first and
    not overlapping, gives way to the value. *)
Lemma replaceAll_plain str find value :
  find <> [] ->
  plain value = true ->
  replaceAll str find value = literalReplaceAll str find value.
Proof. apply replace_plain_literal. Qed.

(** C6, at an input where it fails: a text variable whose default holds
    a dollar sign.  [replaceAll] reads [$$] as a replacement pattern and
    puts one dollar sign in, where the literal replacement of the
    specification puts the value. *)
Lemma assignVariables_dollar_value :
  assignVariables Sample.doc_price Sample.meta_price
  = Ok (js "a::after{content:'$5'}")
  /\ literalReplaceAll Sample.doc_price (js "/*[[price]]*/") (js "$$5")
     = js "a::after{content:'$$5'}"
  /\ valueForVariable Sample.var_price = Ok (js "$$5").
Proof. repeat split; vm_compute; reflexivity. Qed.

(** C7 (as the code has it). A [select], [dropdown] or [image] variable
    resolves to the value of the first option named as its default; with
    no such option, or with [null] options, the resolution returns no
    value: reading a property of [undefined] or [null] throws a
    [TypeError].  The code has no error of its own for this. *)
Theorem valueForVariable_option (variable : MetaVariable) :
  type variable = js "select" \/ type variable = js "dropdown"
  \/ type variable = js "image" ->
  (forall before option after,
      options variable = Some (before ++ option :: after) ->
      opt_name option = default variable ->
      (forall o, In o before -> opt_name o <> default variable) ->
      valueForVariable variable = Ok (opt_value option))
  /\ (forall opts,
      options variable = Some opts ->
      (forall o, In o opts -> opt_name o <> default variable) ->
      valueForVariable variable = Throw TypeError)
  /\ (options variable = None -> valueForVariable variable = Throw TypeError).
Proof.
  intros Htype.
  assert (Hone : oneOf (type variable)
                       [js "select"; js "dropdown"; js "image"] = true).
  { unfold oneOf. cbn [existsb].
    destruct Htype as [-> | [-> | ->]]; rewrite str_eqb_refl;
      now rewrite ?orb_true_r. }
  unfold valueForVariable. rewrite Hone.
  split; [|split].
  - intros before option after Hopts Hname Hbefore. rewrite Hopts.
    assert (Hfind :
      find (fun o => str_eqb (opt_name o) (default variable))
           (before ++ option :: after) = Some option).
    { clear Hopts. induction before as [|p before IH]; cbn [app find].
      - rewrite Hname, str_eqb_refl. reflexivity.
      - replace (str_eqb (opt_name p) (default variable)) with false.
        + apply IH. intros o Ho. apply Hbefore. now right.
        + symmetry. apply str_eqb_neq. apply Hbefore. now left. }
    now rewrite Hfind.
  - intros opts Hopts Hnone. rewrite Hopts.
    assert (Hfind :
      find (fun o => str_eqb (opt_name o) (default variable)) opts = None).
    { clear Hopts. induction opts as [|p opts IH]; [reflexivity|].
      cbn [find].
      replace (str_eqb (opt_name p) (default variable)) with false.
      - apply IH. intros o Ho. apply Hnone. now right.
      - symmetry. apply str_eqb_neq. apply Hnone. now left. }
    now rewrite Hfind.
  - intros ->. reflexivity.
Qed.

Lemma valueForVariable_option_witness :
  valueForVariable Sample.var_theme = Ok (js "#222")
  /\ valueForVariable Sample.var_theme_missing = Throw TypeError.
Proof.
  split.
  - destruct (valueForVariable_option Sample.var_theme) as [H _].
    + left. reflexivity.
    + apply (H [Sample.opt_light] Sample.opt_dark []).
      * reflexivity.
      * reflexivity.
      * intros o [<- | []]. vm_compute. discriminate.
  - destruct (valueForVariable_option Sample.var_theme_missing) as [_ [H _]].
    + right. left. reflexivity.
    + apply (H [Sample.opt_light; Sample.opt_dark]).
      * reflexivity.
      * intros o [<- | [<- | []]]; vm_compute; discriminate.
Defined.

(** C7, the claim as it is written, fails: what is thrown when no option
    is named as the default is the [TypeError] that [null] options and a
    style without [vars] throw too; no error of its own tells the
    fault. *)
Lemma valueForVariable_no_own_error :
  valueForVariable Sample.var_theme_missing = Throw TypeError
  /\ valueForVariable Sample.var_theme_missing
     = valueForVariable var_options_null
  /\ assignVariables (js "a{}")
       {| preprocessor := Some (js "uso"); vars := None |}
     = Throw TypeError.
Proof. repeat split. Qed.

(** ** The walks over the tree *)

(** Induction over a tree whose blocks are lists of trees. *)
Lemma node_nested_ind (P : node -> Prop) :
  (forall l name p block,
      (forall children, block = Some children -> Forall P children) ->
      P (Atrule l name p block)) ->
  (forall l p block, Forall P block -> P (Rule l p block)) ->
  (forall l i property value, P (Declaration l i property value)) ->
  (forall l text, P (Raw l text)) ->
  forall n, P n.
Proof.
  intros Hat Hrule Hdecl Hraw.
  fix IH 1. intros [l name p block | l p block | l i property value | l text].
  - apply Hat. destruct block as [ch|]; intros children E; [|discriminate].
    injection E as <-.
    exact ((fix go (xs : list node) : Forall P xs :=
              match xs with
              | [] => @Forall_nil _ P
              | x :: xs' => @Forall_cons _ P x xs' (IH x) (go xs')
              end) ch).
  - apply Hrule.
    exact ((fix go (xs : list node) : Forall P xs :=
              match xs with
              | [] => @Forall_nil _ P
              | x :: xs' => @Forall_cons _ P x xs' (IH x) (go xs')
              end) block).
  - apply Hdecl.
  - apply Hraw.
Qed.

Lemma bindW_ok {A B} (x : walk A) (f : A -> walk B) b es ws :
  bindW x f = Ok (b, (es, ws)) ->
  exists a e1 w1 e2 w2,
    x = Ok (a, (e1, w1)) /\ f a = Ok (b, (e2, w2))
    /\ es = e1 ++ e2 /\ ws = w1 ++ w2.
Proof.
  unfold bindW. destruct x as [[a [e1 w1]] | e]; [|discriminate].
  destruct (f a) as [[b' [e2 w2]] | e] eqn:Hf; [|discriminate].
  intros H. injection H as <- <- <-.
  now exists a, e1, w1, e2, w2.
Qed.

Lemma bindW_total {A B} (x : walk A) (f : A -> walk B) :
  (exists a log, x = Ok (a, log)) ->
  (forall a, exists b log, f a = Ok (b, log)) ->
  exists b log, bindW x f = Ok (b, log).
Proof.
  intros (a & [e1 w1] & ->) Hf. destruct (Hf a) as (b & [e2 w2] & Hb).
  unfold bindW. rewrite Hb. eauto.
Qed.

Lemma mapW_cons {A B} (f : A -> walk B) x xs :
  mapW f (x :: xs) = (y <~ f x ;; ys <~ mapW f xs ;; retW (y :: ys)).
Proof. reflexivity. Qed.

Lemma mapW_in {A B} (f : A -> walk B) l : forall l' es ws x,
  mapW f l = Ok (l', (es, ws)) ->
  In x l ->
  exists y ex wx, f x = Ok (y, (ex, wx)) /\ In y l' /\ incl ex es.
Proof.
  induction l as [|a l IH]; intros l' es ws x H Hin; [contradiction|].
  rewrite mapW_cons in H.
  apply bindW_ok in H as (y & e1 & w1 & e2 & w2 & Hy & H & -> & ->).
  apply bindW_ok in H as (ys & e3 & w3 & e4 & w4 & Hys & H & -> & ->).
  injection H as <- <- <-.
  destruct Hin as [<- | Hin].
  - exists y, e1, w1. repeat split; [assumption | now left |].
    apply incl_appl, incl_refl.
  - destruct (IH _ _ _ _ Hys Hin) as (y' & ex & wx & Hf & Hy' & Hincl).
    exists y', ex, wx. repeat split; [assumption | now right |].
    apply incl_appr, incl_appl. assumption.
Qed.

Lemma mapW_total {A B} (f : A -> walk B) l :
  Forall (fun x => exists y log, f x = Ok (y, log)) l ->
  exists l' log, mapW f l = Ok (l', log).
Proof.
  induction 1 as [|x xs Hx _ IH].
  - exists [], ([], []). reflexivity.
  - rewrite mapW_cons. apply bindW_total; [assumption|].
    intros y. apply bindW_total; [assumption|].
    intros ys. exists (y :: ys), ([], []). reflexivity.
Qed.

Lemma fixRegexp_bad f arg :
  badRegexp f arg -> fixRegexp f = Ok (f, ([regexpMessage arg], [])).
Proof.
  intros (l & rest & -> & Harg).
  unfold fixRegexp. rewrite str_eqb_refl. cbn [negb].
  destruct arg; [reflexivity | discriminate | reflexivity].
Qed.

Lemma fixRegexp_total f :
  hasArgument f = true -> exists f' log, fixRegexp f = Ok (f', log).
Proof.
  destruct f as [l name children | l value | type l text];
    [| intros _; eexists; eexists; reflexivity ..].
  intros H. unfold fixRegexp.
  destruct (str_eqb name (js "regexp")) eqn:Hname; cbn [negb];
    [| eexists; eexists; reflexivity].
  destruct children as [|arg rest].
  - simpl in H. rewrite Hname in H. discriminate.
  - destruct arg as [l' name' ch' | l' v | type' l' text'];
      try (eexists; eexists; reflexivity).
    destruct (negb (str_eqb v (escapeCSSRegExp v)));
      eexists; eexists; reflexivity.
Qed.

Lemma fixNode_total n :
  callsHaveArgument n = true -> exists n' log, fixNode n = Ok (n', log).
Proof.
  induction n as [l name p block IH | l p block IH | |] using node_nested_ind;
    intros H; try (eexists; eexists; reflexivity).
  - cbn [callsHaveArgument] in H. apply andb_true_iff in H as [Hp Hb].
    cbn [fixNode]. apply bindW_total.
    + destruct p as [[children | text] |];
        try (eexists; eexists; reflexivity).
      destruct (isDocumentRule name); cbn [negb];
        [| eexists; eexists; reflexivity].
      apply bindW_total.
      * apply mapW_total. rewrite forallb_forall in Hp.
        apply Forall_forall. intros f Hf. apply fixRegexp_total. auto.
      * intros ch. eexists; eexists; reflexivity.
    + intros p'. apply bindW_total.
      * destruct block as [children |]; [| eexists; eexists; reflexivity].
        apply bindW_total.
        -- apply mapW_total. specialize (IH children eq_refl).
           rewrite forallb_forall in Hb. rewrite Forall_forall in IH |- *.
           intros x Hx. apply IH; auto.
        -- intros ch. eexists; eexists; reflexivity.
      * intros b'. eexists; eexists; reflexivity.
  - cbn [callsHaveArgument] in H. cbn [fixNode]. apply bindW_total.
    + apply mapW_total. rewrite forallb_forall in H.
      rewrite Forall_forall in IH |- *. intros x Hx. apply IH; auto.
    + intros b'. eexists; eexists; reflexivity.
Qed.

(** The error of a bad [regexp()] call is pushed, and the call stays in the
    tree as it was. *)
Lemma fixNode_bad f arg n :
  PreludeChild f n ->
  badRegexp f arg ->
  forall n' es ws,
    fixNode n = Ok (n', (es, ws)) ->
    In (regexpMessage arg) es /\ PreludeChild f n'.
Proof.
  intros Hchild Hbad.
  induction Hchild as [l name children block Hdoc Hin
                      | l name p children n Hin Hchild IH
                      | l p children n Hin Hchild IH];
    intros n' es ws H; cbn [fixNode] in H.
  - rewrite Hdoc in H. cbn [negb] in H.
    apply bindW_ok in H as (p' & e1 & w1 & e2 & w2 & Hp & H & -> & ->).
    apply bindW_ok in Hp as (ch' & e3 & w3 & e4 & w4 & Hch & Hp & -> & ->).
    injection Hp as <- <- <-.
    apply bindW_ok in H as (b' & e5 & w5 & e6 & w6 & Hb & H & -> & ->).
    injection H as <- <- <-.
    destruct (mapW_in _ _ f Hch Hin) as (y & ex & wx & Hf & Hy & Hincl).
    rewrite (fixRegexp_bad Hbad) in Hf. injection Hf as <- <- <-.
    split.
    + apply in_or_app. left. apply in_or_app. left.
      apply Hincl. now left.
    + now apply pc_here.
  - apply bindW_ok in H as (p' & e1 & w1 & e2 & w2 & Hp & H & -> & ->).
    apply bindW_ok in H as (b' & e3 & w3 & e4 & w4 & Hb & H & -> & ->).
    injection H as <- <- <-.
    apply bindW_ok in Hb as (ch' & e5 & w5 & e6 & w6 & Hch & Hb & -> & ->).
    injection Hb as <- <- <-.
    destruct (mapW_in _ _ n Hch Hin) as (y & ex & wx & Hf & Hy & Hincl).
    destruct (IH _ _ _ Hf) as [Hmsg Hchild'].
    split.
    + apply in_or_app. right. apply in_or_app. left.
      apply in_or_app. left. now apply Hincl.
    + now apply pc_atrule with (n := y).
  - apply bindW_ok in H as (b' & e1 & w1 & e2 & w2 & Hch & H & -> & ->).
    injection H as <- <- <-.
    destruct (mapW_in _ _ n Hch Hin) as (y & ex & wx & Hf & Hy & Hincl).
    destruct (IH _ _ _ Hf) as [Hmsg Hchild'].
    split.
    + apply in_or_app. left. now apply Hincl.
    + now apply pc_rule with (n := y).
Qed.

(** ** Structural importance escalation *)

Lemma map_fixed {A} (g : A -> A) l :
  Forall (fun x => g (g x) = g x) l -> map g (map g l) = map g l.
Proof.
  induction 1 as [|x xs Hx _ IH]; [reflexivity|].
  cbn [map]. now rewrite Hx, IH.
Qed.

Lemma forallb_map_same {A} (f : A -> bool) (g : A -> A) l :
  Forall (fun x => f (g x) = f x) l -> forallb f (map g l) = forallb f l.
Proof.
  induction 1 as [|x xs Hx _ IH]; [reflexivity|].
  cbn [map forallb]. now rewrite Hx, IH.
Qed.

Lemma forallb_map_true {A} (f : A -> bool) (g : A -> A) l :
  Forall (fun x => f (g x) = true) l -> forallb f (map g l) = true.
Proof.
  induction 1 as [|x xs Hx _ IH]; [reflexivity|].
  cbn [map forallb]. now rewrite Hx, IH.
Qed.

Lemma markImportant_idempotent n :
  markImportant (markImportant n) = markImportant n.
Proof.
  induction n as [l name p block IH | l p block IH | |] using node_nested_ind;
    cbn [markImportant]; try reflexivity.
  - destruct block as [children |]; [|reflexivity].
    cbn [option_map]. now rewrite (map_fixed _ (IH children eq_refl)).
  - now rewrite (map_fixed _ IH).
Qed.

Lemma markImportant_all n : allImportant (markImportant n) = true.
Proof.
  induction n as [l name p block IH | l p block IH | |] using node_nested_ind;
    cbn [markImportant allImportant]; try reflexivity.
  - destruct block as [children |]; [|reflexivity].
    cbn [option_map]. apply forallb_map_true, (IH children eq_refl).
  - apply forallb_map_true, IH.
Qed.

Lemma markImportant_calls n :
  callsHaveArgument (markImportant n) = callsHaveArgument n.
Proof.
  induction n as [l name p block IH | l p block IH | |] using node_nested_ind;
    cbn [markImportant callsHaveArgument]; try reflexivity.
  - destruct block as [children |]; [|reflexivity].
    cbn [option_map]. now rewrite (forallb_map_same _ _ (IH children eq_refl)).
  - now rewrite (forallb_map_same _ _ IH).
Qed.

Lemma markImportant_child f n :
  PreludeChild f n -> PreludeChild f (markImportant n).
Proof.
  induction 1 as [l name children block Hdoc Hin
                 | l name p children n Hin Hchild IH
                 | l p children n Hin Hchild IH];
    cbn [markImportant option_map].
  - now apply pc_here.
  - apply pc_atrule with (n := markImportant n); [now apply in_map | exact IH].
  - apply pc_rule with (n := markImportant n); [now apply in_map | exact IH].
Qed.

Lemma mapW_forallb {A} (f : A -> walk A) (q : A -> bool) l :
  Forall (fun x => forall y log, f x = Ok (y, log) -> q y = q x) l ->
  forall l' log, mapW f l = Ok (l', log) -> forallb q l' = forallb q l.
Proof.
  induction 1 as [|x xs Hx _ IH]; intros l' [es ws] H.
  - injection H as <- _ _. reflexivity.
  - rewrite mapW_cons in H.
    apply bindW_ok in H as (y & e1 & w1 & e2 & w2 & Hy & H & -> & ->).
    apply bindW_ok in H as (ys & e3 & w3 & e4 & w4 & Hys & H & -> & ->).
    injection H as <- _ _. cbn [forallb].
    now rewrite (Hx _ _ Hy), (IH _ _ Hys).
Qed.

(** The third walk leaves the declarations alone. *)
Lemma fixNode_allImportant n :
  forall n' log, fixNode n = Ok (n', log) -> allImportant n' = allImportant n.
Proof.
  induction n as [l name p block IH | l p block IH | |] using node_nested_ind;
    intros n' [es ws] H; cbn [fixNode] in H;
    try (injection H as <- _ _; reflexivity).
  - apply bindW_ok in H as (p' & e1 & w1 & e2 & w2 & Hp & H & -> & ->).
    apply bindW_ok in H as (b' & e3 & w3 & e4 & w4 & Hb & H & -> & ->).
    injection H as <- _ _. cbn [allImportant].
    destruct block as [children |].
    + apply bindW_ok in Hb as (ch' & e5 & w5 & e6 & w6 & Hch & Hb & -> & ->).
      injection Hb as <- _ _.
      eapply mapW_forallb; [exact (IH children eq_refl) | exact Hch].
    + injection Hb as <- _ _. reflexivity.
  - apply bindW_ok in H as (b' & e1 & w1 & e2 & w2 & Hch & H & -> & ->).
    injection H as <- _ _. cbn [allImportant].
    eapply mapW_forallb; [exact IH | exact Hch].
Qed.

Lemma flat_map_map_same {A B} (f : A -> list B) (g : A -> A) l :
  Forall (fun x => f (g x) = f x) l -> flat_map f (map g l) = flat_map f l.
Proof.
  induction 1 as [|x xs Hx _ IH]; [reflexivity|].
  cbn [map flat_map]. now rewrite Hx, IH.
Qed.

(** Marking keeps every declaration where it is. *)
Lemma markImportant_declarations n :
  declarationsOf (markImportant n) = declarationsOf n.
Proof.
  induction n as [l name p block IH | l p block IH | |] using node_nested_ind;
    cbn [markImportant declarationsOf]; try reflexivity.
  - destruct block as [children |]; [|reflexivity].
    cbn [option_map]. apply flat_map_map_same, (IH children eq_refl).
  - apply flat_map_map_same, IH.
Qed.

Lemma mapW_flat_map {A B} (f : A -> walk A) (q : A -> list B) l :
  Forall (fun x => forall y log, f x = Ok (y, log) -> q y = q x) l ->
  forall l' log, mapW f l = Ok (l', log) -> flat_map q l' = flat_map q l.
Proof.
  induction 1 as [|x xs Hx _ IH]; intros l' [es ws] H.
  - injection H as <- _ _. reflexivity.
  - rewrite mapW_cons in H.
    apply bindW_ok in H as (y & e1 & w1 & e2 & w2 & Hy & H & -> & ->).
    apply bindW_ok in H as (ys & e3 & w3 & e4 & w4 & Hys & H & -> & ->).
    injection H as <- _ _. cbn [flat_map].
    now rewrite (Hx _ _ Hy), (IH _ _ Hys).
Qed.

Lemma fixNode_declarations n :
  forall n' log, fixNode n = Ok (n', log) ->
                 declarationsOf n' = declarationsOf n.
Proof.
  induction n as [l name p block IH | l p block IH | |] using node_nested_ind;
    intros n' [es ws] H; cbn [fixNode] in H;
    try (injection H as <- _ _; reflexivity).
  - apply bindW_ok in H as (p' & e1 & w1 & e2 & w2 & Hp & H & -> & ->).
    apply bindW_ok in H as (b' & e3 & w3 & e4 & w4 & Hb & H & -> & ->).
    injection H as <- _ _. cbn [declarationsOf].
    destruct block as [children |].
    + apply bindW_ok in Hb as (ch' & e5 & w5 & e6 & w6 & Hch & Hb & -> & ->).
      injection Hb as <- _ _.
      eapply mapW_flat_map; [exact (IH children eq_refl) | exact Hch].
    + injection Hb as <- _ _. reflexivity.
  - apply bindW_ok in H as (b' & e1 & w1 & e2 & w2 & Hch & H & -> & ->).
    injection H as <- _ _. cbn [declarationsOf].
    eapply mapW_flat_map; [exact IH | exact Hch].
Qed.

(** ** [validateAndTransformCSS] *)

Section Validate.
Variable parse : jsstring -> StyleSheet * list SyntaxError.
Variable matchDeclaration : node -> option MatchError.
Variable generate : StyleSheet -> jsstring.

Lemma collectErrors_eq css :
  collectErrors parse matchDeclaration css
  = map ParseError (snd (parse css))
    ++ flat_map (validateNode matchDeclaration) (fst (parse css)).
Proof. unfold collectErrors. destruct (parse css). reflexivity. Qed.

(** C1. When the parse or the matching of declarations against the
    grammar collects an error, [validateAndTransformCSS] returns at once:
    [transformed] is the input itself and [warnings] is empty. *)
Theorem validate_errors_short_circuit (css : jsstring) :
  snd (parse css) <> []
  \/ flat_map (validateNode matchDeclaration) (fst (parse css)) <> [] ->
  validateAndTransformCSS parse matchDeclaration generate css
  = Ok {| errors := map ParseError (snd (parse css))
                    ++ flat_map (validateNode matchDeclaration)
                                (fst (parse css));
          warnings := [];
          transformed := css |}.
Proof.
  intros H. unfold validateAndTransformCSS.
  rewrite collectErrors_eq.
  destruct (parse css) as [ast parseErrors]. cbn [fst snd] in *.
  destruct (map ParseError parseErrors ++ flat_map (validateNode matchDeclaration) ast)
    as [|e es] eqn:E; [|reflexivity].
  apply app_eq_nil in E as [E1 E2].
  destruct H as [H | H]; [|contradiction].
  destruct parseErrors; [contradiction | discriminate].
Qed.

(** C2 (as the code has it). With no error from the parse and the
    grammar, a [regexp()] call of a [document] or [-moz-document] prelude
    whose first argument is no string literal has its error recorded in
    [errors], and the function goes on: it returns what the repair walk
    gives on the tree with every declaration marked important, that is
    the errors and warnings the walk pushed and the serialization of the
    tree the walk returned.  In that tree the call stays as it is, every
    declaration of the parsed tree is at its place and every one is
    marked important. *)
Theorem regexp_argument_error (css : jsstring) (ast : StyleSheet)
    (f arg : pnode) :
  parse css = (ast, []) ->
  flat_map (validateNode matchDeclaration) ast = [] ->
  forallb callsHaveArgument ast = true ->
  InDocumentPrelude f ast ->
  badRegexp f arg ->
  exists ast' pushed warned,
    mapW fixNode (map markImportant ast) = Ok (ast', (pushed, warned))
    /\ validateAndTransformCSS parse matchDeclaration generate css
       = Ok {| errors := map Message pushed;
               warnings := warned;
               transformed := generate ast' |}
    /\ In (regexpMessage arg) pushed
    /\ InDocumentPrelude f ast'
    /\ flat_map declarationsOf ast' = flat_map declarationsOf ast
    /\ forallb allImportant ast' = true.
Proof.
  intros Hparse Hvalid Hargs (n & Hn & Hchild) Hbad.
  destruct (mapW_total fixNode (l := map markImportant ast))
    as (ast' & [es ws] & Hwalk).
  { apply Forall_forall. intros x Hx.
    apply in_map_iff in Hx as (x0 & <- & Hx0).
    apply fixNode_total. rewrite markImportant_calls.
    rewrite forallb_forall in Hargs. auto. }
  exists ast', es, ws. split; [exact Hwalk|].
  destruct (mapW_in _ _ (markImportant n) Hwalk (in_map _ _ _ Hn))
    as (n' & ex & wx & Hfix & Hn' & Hincl).
  destruct (fixNode_bad (markImportant_child Hchild) Hbad Hfix)
    as [Hmsg Hchild'].
  split; [|split; [|split; [|split]]].
  - unfold validateAndTransformCSS. rewrite collectErrors_eq, Hparse.
    cbn [fst snd map app]. rewrite Hvalid, Hwalk. reflexivity.
  - now apply Hincl.
  - now exists n'.
  - transitivity (flat_map declarationsOf (map markImportant ast)).
    + eapply mapW_flat_map; [|exact Hwalk].
      apply Forall_forall. intros x _ y log. apply fixNode_declarations.
    + apply flat_map_map_same, Forall_forall. intros x _.
      apply markImportant_declarations.
  - transitivity (forallb allImportant (map markImportant ast)).
    + eapply mapW_forallb; [|exact Hwalk].
      apply Forall_forall. intros x _ y log. apply fixNode_allImportant.
    + apply forallb_map_true, Forall_forall. intros x _.
      apply markImportant_all.
Qed.

End Validate.

Lemma validate_errors_short_circuit_witness :
  exists es,
    es <> []
    /\ validateAndTransformCSS Sample.parse Sample.matchDeclaration
                               Sample.generate Sample.doc_5px
       = Ok {| errors := es; warnings := []; transformed := Sample.doc_5px |}.
Proof.
  eexists. split.
  2:{ apply (validate_errors_short_circuit
               Sample.parse Sample.matchDeclaration Sample.generate
               Sample.doc_5px).
      right. vm_compute. discriminate. }
  vm_compute. discriminate.
Defined.

(** C2, the claim as it is written, fails: the error of the third walk
    does not stop the function, which returns the serialized tree next to
    a non-empty [errors]. *)
Lemma regexp_error_keeps_transforming :
  validateAndTransformCSS Sample.parse Sample.matchDeclaration
                          Generator.generate Sample.doc_regexp_ident
  = Ok {| errors := [Message (js "1:23: regexp() argument must be a String")];
          warnings := [];
          transformed :=
            js "@-moz-document regexp(x){a{color:red!important}}" |}
  /\ js "@-moz-document regexp(x){a{color:red!important}}"
     <> Sample.doc_regexp_ident.
Proof. split; [vm_compute; reflexivity | vm_compute; discriminate]. Qed.

Lemma regexp_argument_error_witness :
  exists ast' pushed warned,
    mapW fixNode (map markImportant Sample.tree_regexp_ident)
    = Ok (ast', (pushed, warned))
    /\ validateAndTransformCSS Sample.parse Sample.matchDeclaration
                               Generator.generate Sample.doc_regexp_ident
       = Ok {| errors := map Message pushed;
               warnings := warned;
               transformed := Generator.generate ast' |}
    /\ In (js "1:23: regexp() argument must be a String") pushed
    /\ InDocumentPrelude Sample.call_regexp_ident ast'
    /\ flat_map declarationsOf ast'
       = flat_map declarationsOf Sample.tree_regexp_ident
    /\ forallb allImportant ast' = true.
Proof.
  apply (regexp_argument_error
           Sample.parse Sample.matchDeclaration Generator.generate
           Sample.doc_regexp_ident
           (ast := Sample.tree_regexp_ident)
           (f := Sample.call_regexp_ident)
           (arg := OtherNode (js "Identifier") (Sample.at_ 1 23) (js "x"))).
  - reflexivity.
  - reflexivity.
  - reflexivity.
  - eexists. split; [left; reflexivity|].
    apply pc_here; [reflexivity | left; reflexivity].
  - eexists; eexists. split; reflexivity.
Defined.

(** C9 (as the code has it). With the default or an absent
    preprocessor, the document [a{color:red;}], parsed by css-tree to a
    rule with one declaration that its lexer accepts, comes out with no
    error and no warning as [a{color:red!important}]: the resolver leaves
    the text alone, the declaration is marked important, and css-tree's
    serializer writes the marker right after the value, with no space
    and no last semicolon. *)
Theorem transformStyle_red
    (parse : jsstring -> StyleSheet * list SyntaxError)
    (matchDeclaration : node -> option MatchError) (metadata : Metadata) :
  preprocessor metadata = None
  \/ preprocessor metadata = Some (js "default") ->
  parse (js "a{color:red;}") = (Sample.tree_red, []) ->
  matchDeclaration
    (Declaration (Sample.at_ 1 3) (Important false) (js "color") (js "red"))
  = None ->
  transformStyle parse matchDeclaration Generator.generate
                 (js "a{color:red;}") metadata
  = Ok {| errors := [];
          warnings := [];
          transformed := js "a{color:red!important}" |}.
Proof.
  intros Hpre Hparse Hmatch.
  unfold transformStyle.
  assert (Hassign : assignVariables (js "a{color:red;}") metadata
                    = Ok (js "a{color:red;}")).
  { unfold assignVariables. destruct Hpre as [-> | ->]; reflexivity. }
  rewrite Hassign. cbn [bind].
  assert (Hvalid : flat_map (validateNode matchDeclaration) Sample.tree_red
                   = []).
  { cbn [Sample.tree_red flat_map validateNode reportDeclaration].
    now rewrite Hmatch. }
  unfold validateAndTransformCSS. rewrite collectErrors_eq, Hparse.
  cbn [fst snd map app]. rewrite Hvalid.
  reflexivity.
Qed.

Lemma transformStyle_red_witness :
  transformStyle Sample.parse Sample.matchDeclaration Generator.generate
                 (js "a{color:red;}") Sample.meta_default
  = Ok {| errors := [];
          warnings := [];
          transformed := js "a{color:red!important}" |}.
Proof.
  apply (transformStyle_red Sample.parse Sample.matchDeclaration
                            Sample.meta_default).
  - right. reflexivity.
  - reflexivity.
  - reflexivity.
Defined.

(** C9, the claim as it is written, fails: the text that comes out has
    no space before the importance marker. *)
Lemma transformStyle_red_no_space :
  transformStyle Sample.parse Sample.matchDeclaration Generator.generate
                 (js "a{color:red;}") Sample.meta_default
  = Ok {| errors := [];
          warnings := [];
          transformed := js "a{color:red!important}" |}
  /\ js "a{color:red!important}" <> js "a{color:red !important}".
Proof. split; [vm_compute; reflexivity | vm_compute; discriminate]. Qed.

(** ** Textual importance escalation *)

Lemma lazyValue_space s : lazyValue (c_space :: s) = option_map S (lazyValue s).
Proof. reflexivity. Qed.

(** The optional space of the pattern changes nothing: the lazy star can
    take the space itself. *)
Lemma re_declaration_eq c s1 :
  re_declaration (c :: s1)
  = if (c =? c_colon)%N then
      match lazyValue s1 with
      | Some n => Some (n + 3, [firstn (n + 1) (c :: s1)])%nat
      | None => None
      end
    else None.
Proof.
  unfold re_declaration. destruct (c =? c_colon)%N; [|reflexivity].
  destruct s1 as [|sp s2]; [reflexivity|].
  destruct (N.eqb_spec sp c_space) as [-> | Hsp]; [|reflexivity].
  rewrite lazyValue_space. destruct (lazyValue s2) as [n|]; [|reflexivity].
  cbn [option_map].
  replace (n + 4)%nat with (S n + 3)%nat by lia.
  replace (n + 2)%nat with (S n + 1)%nat by lia. reflexivity.
Qed.

Lemma subst_important matched before after cap :
  getSubstitution matched before after [cap] tmpl_important
  = cap ++ suffix_important.
Proof. reflexivity. Qed.

Lemma subst_important_before matched before before' after caps :
  getSubstitution matched before after caps tmpl_important
  = getSubstitution matched before' after caps tmpl_important.
Proof. vm_compute. reflexivity. Qed.

(** The template does not read what came before the match. *)
Lemma adjust_before s : forall k b b',
  replace_go re_declaration tmpl_important b k s
  = replace_go re_declaration tmpl_important b' k s.
Proof.
  induction s as [|c s IH]; intros k b b'.
  - destruct k; [|reflexivity]. reflexivity.
  - destruct k as [|k]; cbn [replace_go]; [|apply IH].
    destruct (re_declaration (c :: s)) as [[len caps]|].
    + rewrite (subst_important_before _ (rev b) (rev b')).
      destruct len; now rewrite (IH _ (c :: b) (c :: b')).
    + now rewrite (IH _ (c :: b) (c :: b')).
Qed.

Lemma adjust_skip k : forall s b,
  (k <= List.length s)%nat ->
  replace_go re_declaration tmpl_important b k s
  = replace_go re_declaration tmpl_important b 0 (skipn k s).
Proof.
  induction k as [|k IH]; intros s b Hk; [reflexivity|].
  destruct s as [|c s]; [simpl in Hk; lia|].
  cbn [replace_go skipn]. rewrite IH by (simpl in Hk; lia).
  apply adjust_before.
Qed.

Lemma lazyValue_length s : forall n,
  lazyValue s = Some n -> (n + 2 <= List.length s)%nat.
Proof.
  induction s as [|c s IH]; intros n H; [discriminate|].
  cbn [lazyValue] in H.
  destruct ((c =? c_semi)%N
            && match s with d :: _ => (d =? c_lf)%N | [] => false end) eqn:E.
  - injection H as <-. destruct s; [now rewrite andb_false_r in E|].
    simpl. lia.
  - destruct (c =? c_bang)%N; [discriminate|].
    destruct (lazyValue s) as [m|]; [|discriminate].
    injection H as <-. specialize (IH m eq_refl). simpl. lia.
Qed.

Lemma adjustPriority_nil : adjustPriority [] = [].
Proof. reflexivity. Qed.

Lemma adjustPriority_copy c s :
  re_declaration (c :: s) = None ->
  adjustPriority (c :: s) = c :: adjustPriority s.
Proof.
  intros H. unfold adjustPriority, replaceGlobal.
  fold tmpl_important. cbn [replace_go]. rewrite H.
  f_equal. apply adjust_before.
Qed.

Lemma adjustPriority_match s1 n :
  lazyValue s1 = Some n ->
  adjustPriority (c_colon :: s1)
  = (c_colon :: firstn n s1) ++ suffix_important
    ++ adjustPriority (skipn (n + 2) s1).
Proof.
  intros H. pose proof (lazyValue_length _ H) as Hlen.
  unfold adjustPriority, replaceGlobal. fold tmpl_important.
  cbn [replace_go]. rewrite re_declaration_eq.
  change (c_colon =? c_colon)%N with true. cbv iota. rewrite H.
  rewrite subst_important.
  replace (n + 1)%nat with (S n) by lia.
  replace (n + 3)%nat with (S (n + 2)) by lia.
  cbn [firstn]. rewrite <- app_assoc. f_equal. f_equal.
  rewrite adjust_skip by assumption. apply adjust_before.
Qed.

(** The first code unit is kept. *)
Lemma adjustPriority_head s :
  match adjustPriority s with d :: _ => (d =? c_lf)%N | [] => false end
  = match s with d :: _ => (d =? c_lf)%N | [] => false end.
Proof.
  destruct s as [|c s]; [reflexivity|].
  destruct (re_declaration (c :: s)) as [[len caps]|] eqn:E.
  - rewrite re_declaration_eq in E.
    destruct (N.eqb_spec c c_colon) as [-> | Hc]; [|discriminate].
    destruct (lazyValue s) as [n|] eqn:Hn; [|discriminate].
    rewrite (adjustPriority_match _ Hn). reflexivity.
  - now rewrite (adjustPriority_copy _ _ E).
Qed.

(** Where no value could be read, none can be read after the rewrite. *)
Lemma lazyValue_adjust s :
  lazyValue s = None -> lazyValue (adjustPriority s) = None.
Proof.
  induction s as [|c s IH]; intros H; [reflexivity|].
  cbn [lazyValue] in H.
  destruct ((c =? c_semi)%N
            && match s with d :: _ => (d =? c_lf)%N | [] => false end) eqn:E;
    [discriminate|].
  assert (Hcopy : adjustPriority (c :: s) = c :: adjustPriority s).
  { apply adjustPriority_copy. rewrite re_declaration_eq.
    destruct (N.eqb_spec c c_colon) as [-> | Hc]; [|reflexivity].
    change (c_colon =? c_bang)%N with false in H. cbv iota in H.
    destruct (lazyValue s); [discriminate | reflexivity]. }
  rewrite Hcopy. cbn [lazyValue]. rewrite adjustPriority_head, E.
  destruct (c =? c_bang)%N; [reflexivity|].
  destruct (lazyValue s); [discriminate|]. now rewrite IH.
Qed.

Lemma adjustPriority_noMatch p : forall t,
  noMatch p t -> adjustPriority (p ++ t) = p ++ adjustPriority t.
Proof.
  induction p as [|c p IH]; intros t H; [reflexivity|].
  destruct H as [Hc Hp]. cbn [app] in *.
  rewrite (adjustPriority_copy _ _ Hc). now rewrite IH.
Qed.

Lemma noMatch_app p : forall q t,
  noMatch p (q ++ t) -> noMatch q t -> noMatch (p ++ q) t.
Proof.
  induction p as [|c p IH]; intros q t Hp Hq; [exact Hq|].
  destruct Hp as [Hc Hp]. cbn [app noMatch]. split.
  - rewrite <- app_assoc. exact Hc.
  - now apply IH.
Qed.

Lemma noMatch_suffix t : noMatch suffix_important t.
Proof. cbn. repeat split. Qed.

Lemma blocked_here v x :
  blocked v x -> lazyValue (v ++ suffix_important ++ x) = None.
Proof. destruct v; intros [H _]; exact H. Qed.

(** The code units the lazy star took are blocked by the marker. *)
Lemma lazyValue_blocked s : forall n x,
  lazyValue s = Some n -> blocked (firstn n s) x.
Proof.
  induction s as [|c s IH]; intros n x H; [discriminate|].
  cbn [lazyValue] in H.
  destruct ((c =? c_semi)%N
            && match s with d :: _ => (d =? c_lf)%N | [] => false end) eqn:E.
  - injection H as <-. cbn. split; reflexivity.
  - destruct (c =? c_bang)%N eqn:Hbang; [discriminate|].
    destruct (lazyValue s) as [m|] eqn:Hm; [|discriminate].
    injection H as <-. cbn [firstn blocked]. split; [|now apply IH].
    pose proof (blocked_here _ _ (IH m x eq_refl)) as Hnone.
    cbn [app lazyValue]. rewrite Hbang, Hnone.
    replace ((c =? c_semi)%N
             && match firstn m s ++ suffix_important ++ x with
                | d :: _ => (d =? c_lf)%N
                | [] => false
                end) with false; [reflexivity|].
    symmetry. destruct (c =? c_semi)%N; [|reflexivity].
    cbn [andb] in E |- *.
    destruct m as [|m]; [reflexivity|].
    destruct s as [|d s]; [discriminate | exact E].
Qed.

Lemma blocked_noMatch v : forall x,
  blocked v x -> noMatch v (suffix_important ++ x).
Proof.
  induction v as [|c v IH]; intros x H; [exact I|].
  destruct H as [Hc Hv]. cbn [noMatch]. split; [|now apply IH].
  cbn [app]. rewrite re_declaration_eq.
  destruct (c =? c_colon)%N; [|reflexivity].
  destruct v as [|d v].
  - reflexivity.
  - destruct Hv as [Hd _]. now rewrite Hd.
Qed.

Lemma adjustPriority_idempotent_upto n : forall s,
  (List.length s <= n)%nat ->
  adjustPriority (adjustPriority s) = adjustPriority s.
Proof.
  induction n as [|n IH]; intros s Hlen.
  - destruct s; [reflexivity | simpl in Hlen; lia].
  - destruct s as [|c s]; [reflexivity|].
    destruct (re_declaration (c :: s)) as [[len caps]|] eqn:E.
    + rewrite re_declaration_eq in E.
      destruct (N.eqb_spec c c_colon) as [-> | Hc]; [|discriminate].
      destruct (lazyValue s) as [m|] eqn:Hm; [|discriminate].
      rewrite (adjustPriority_match _ Hm).
      pose proof (lazyValue_blocked _ (adjustPriority (skipn (m + 2) s)) Hm)
        as Hblocked.
      rewrite app_assoc.
      rewrite adjustPriority_noMatch.
      * rewrite IH; [reflexivity|].
        rewrite length_skipn. simpl in Hlen. lia.
      * apply noMatch_app; [|apply noMatch_suffix].
        cbn [noMatch]. split; [|now apply blocked_noMatch].
        cbn [app]. rewrite re_declaration_eq.
        change (c_colon =? c_colon)%N with true. cbv iota.
        now rewrite (blocked_here _ _ Hblocked).
    + rewrite (adjustPriority_copy _ _ E).
      assert (E' : re_declaration (c :: adjustPriority s) = None).
      { rewrite re_declaration_eq in E |- *.
        destruct (c =? c_colon)%N; [|reflexivity].
        destruct (lazyValue s) eqn:Hs; [discriminate|].
        now rewrite (lazyValue_adjust _ Hs). }
      rewrite (adjustPriority_copy _ _ E').
      rewrite IH; [reflexivity | simpl in Hlen; lia].
Qed.

(** C8. Importance escalation is idempotent: rewriting the text twice
    gives what rewriting it once gives, and marking every declaration of
    a tree important twice gives the tree that marking once gives. *)
Theorem escalation_idempotent :
  (forall styleText : jsstring,
      adjustPriority (adjustPriority styleText) = adjustPriority styleText)
  /\ (forall ast : StyleSheet,
      map markImportant (map markImportant ast) = map markImportant ast).
Proof.
  split.
  - intros s. now apply (adjustPriority_idempotent_upto (n := List.length s)).
  - intros ast. apply map_fixed, Forall_forall. intros n _.
    apply markImportant_idempotent.
Qed.

(** * Further properties of the code *)

(** ** [replaceAll] and [escapeCSSRegExp] *)

Lemma includes_prefix s p q :
  includes s p = false -> includes s (p ++ q) = false.
Proof.
  intros H. destruct (includes s (p ++ q)) eqn:E; [|reflexivity].
  apply includes_iff in E as (a & b & ->).
  assert (Ht : includes (a ++ (p ++ q) ++ b) p = true).
  { apply includes_iff. exists a, (q ++ b). now rewrite <- app_assoc. }
  congruence.
Qed.

Lemma replace_literal_absent find replace s : forall b,
  includes s find = false ->
  replace_go (re_literal find) replace b 0 s = s.
Proof.
  induction s as [|c s IH]; intros b H.
  - cbn [replace_go]. unfold re_literal.
    simpl in H. rewrite orb_false_r in H. now rewrite H.
  - apply includes_cons_false in H as [Hsw Hinc].
    cbn [replace_go]. unfold re_literal at 1. rewrite Hsw.
    now rewrite IH.
Qed.

(** X1. A text in which [find] does not occur is returned as it is,
    whatever the replacement holds. *)
Theorem replaceAll_absent (str find replace : jsstring) :
  includes str find = false -> replaceAll str find replace = str.
Proof. intros H. now apply replace_literal_absent. Qed.

Lemma replaceAll_absent_witness :
  replaceAll (js "a{color:red}") (js "/*[[c]]*/") (js "$&$&") = js "a{color:red}".
Proof. apply replaceAll_absent. reflexivity. Defined.

Lemma replaceAll_plain_witness :
  replaceAll (js "a{color:/*[[c]]*/;b:/*[[c]]*/}") (js "/*[[c]]*/") (js "#fff")
  = js "a{color:#fff;b:#fff}".
Proof.
  rewrite replaceAll_plain; [reflexivity | discriminate | reflexivity].
Defined.

(** After one pass of the regular expression the text is unchanged or
    holds a pair of backslashes. *)
Lemma escape_scan_changed s : forall b,
  replace_go re_single_escape tmpl_escape b 0 s = s
  \/ includes (replace_go re_single_escape tmpl_escape b 0 s)
              [c_backslash; c_backslash] = true.
Proof.
  induction s as [|c s IH]; intros b; [now left|].
  destruct s as [|d rest]; [now left|].
  destruct (N.eq_dec c c_backslash) as [-> | Hc].
  - rewrite escape_nomatch by reflexivity.
    destruct (IH (c_backslash :: b)) as [-> | H]; [now left | right].
    change (includes (c_backslash :: ?r) ?p)
      with (startsWith p (c_backslash :: r) || includes r p).
    now rewrite H, orb_true_r.
  - destruct (N.eq_dec d c_backslash) as [-> | Hd].
    + right. rewrite escape_match by assumption.
      change (includes (c :: c_backslash :: c_backslash :: ?r) ?p)
        with (startsWith p (c :: c_backslash :: c_backslash :: r)
              || (startsWith p (c_backslash :: c_backslash :: r)
                  || includes (c_backslash :: r) p)).
      cbn [startsWith]. change (c_backslash =? c_backslash)%N with true.
      cbn [andb]. now rewrite orb_true_r.
    + rewrite escape_nomatch.
      2:{ simpl. apply N.eqb_neq in Hd. rewrite Hd.
          now rewrite andb_false_r. }
      destruct (IH (c :: b)) as [-> | H]; [now left | right].
      change (includes (c :: ?r) ?p)
        with (startsWith p (c :: r) || includes r p).
      now rewrite H, orb_true_r.
Qed.

Lemma escapeCSSRegExp_unfold s :
  escapeCSSRegExp s
  = if includes s [c_backslash; c_backslash] then s
    else replace_go re_single_escape tmpl_escape [] 0 s.
Proof. reflexivity. Qed.

Lemma escapeCSSRegExp_twice s :
  escapeCSSRegExp (escapeCSSRegExp s) = escapeCSSRegExp s.
Proof.
  rewrite (escapeCSSRegExp_unfold s).
  destruct (includes s [c_backslash; c_backslash]) eqn:Hinc.
  - now rewrite escapeCSSRegExp_unfold, Hinc.
  - destruct (escape_scan_changed s []) as [E | E].
    + rewrite E. rewrite escapeCSSRegExp_unfold, Hinc. exact E.
    + now rewrite escapeCSSRegExp_unfold, E.
Qed.

(** X9. Repairing twice gives what repairing once gives: a repaired
    string holds a pair of backslashes and is then taken as escaped. *)
Theorem escapeCSSRegExp_idempotent (regexp : jsstring) :
  escapeCSSRegExp (escapeCSSRegExp regexp) = escapeCSSRegExp regexp.
Proof. apply escapeCSSRegExp_twice. Qed.

Lemma escape_scan_keeps n : forall s b,
  (List.length s <= n)%nat ->
  withoutBackslashes (replace_go re_single_escape tmpl_escape b 0 s)
  = withoutBackslashes s
  /\ (List.length s
      <= List.length (replace_go re_single_escape tmpl_escape b 0 s))%nat.
Proof.
  induction n as [|n IH]; intros s b Hlen.
  - destruct s; [split; reflexivity | simpl in Hlen; lia].
  - destruct s as [|c s]; [split; reflexivity|].
    destruct s as [|d rest]; [split; reflexivity|].
    destruct (N.eq_dec c c_backslash) as [-> | Hc].
    + rewrite escape_nomatch by reflexivity.
      destruct (IH (d :: rest) (c_backslash :: b)) as [Hf Hl];
        [simpl in Hlen |- *; lia|].
      split; [|simpl in Hl |- *; lia].
      unfold withoutBackslashes in *. cbn [filter].
      change (c_backslash =? c_backslash)%N with true. cbn [negb].
      exact Hf.
    + destruct (N.eq_dec d c_backslash) as [-> | Hd].
      * rewrite escape_match by assumption.
        destruct (IH rest (c_backslash :: c :: b)) as [Hf Hl];
          [simpl in Hlen |- *; lia|].
        split; [|simpl in Hl |- *; lia].
        unfold withoutBackslashes in *. cbn [filter].
        change (c_backslash =? c_backslash)%N with true. cbn [negb].
        now rewrite Hf.
      * rewrite escape_nomatch.
        2:{ simpl. apply N.eqb_neq in Hd. rewrite Hd.
            now rewrite andb_false_r. }
        destruct (IH (d :: rest) (c :: b)) as [Hf Hl];
          [simpl in Hlen |- *; lia|].
        split; [|simpl in Hl |- *; lia].
        unfold withoutBackslashes in *.
        change (filter ?f (c :: ?l))
          with (if f c then c :: filter f l else filter f l).
        now rewrite Hf.
Qed.

(** X10. The repair only adds backslashes: the characters other than
    backslashes come out in the same order, and the string never gets
    shorter. *)
Theorem escapeCSSRegExp_keeps_characters (regexp : jsstring) :
  withoutBackslashes (escapeCSSRegExp regexp) = withoutBackslashes regexp
  /\ (List.length regexp <= List.length (escapeCSSRegExp regexp))%nat.
Proof.
  rewrite escapeCSSRegExp_unfold.
  destruct (includes regexp [c_backslash; c_backslash]);
    [split; [reflexivity | lia]|].
  now apply (escape_scan_keeps (n := List.length regexp)).
Qed.

(** ** The resolver *)

Lemma digits_no_hex_prefix digits p :
  forallb isDigit digits = true ->
  p = js "0x" \/ p = js "0X" ->
  startsWith p (digits ++ []) = false.
Proof.
  intros Hd Hp. rewrite app_nil_r.
  destruct digits as [|a [|b t]];
    [destruct Hp as [-> | ->]; reflexivity
    |destruct Hp as [-> | ->]; cbn; now rewrite andb_false_r|].
  cbn [forallb] in Hd.
  apply andb_true_iff in Hd as [_ Hd]. apply andb_true_iff in Hd as [Hb _].
  destruct Hp as [-> | ->]; cbn [js list_ascii_of_string map startsWith].
  - destruct (N.eqb_spec (N_of_ascii "x") b) as [<- | _];
      [discriminate | now rewrite andb_false_r].
  - destruct (N.eqb_spec (N_of_ascii "X") b) as [<- | _];
      [discriminate | now rewrite andb_false_r].
Qed.

(** X4. Only the decimal digits right after the first character count:
    what follows the first character that is no decimal digit (the hex
    digits a-f among them) is ignored. *)
Theorem colorHexToRGB_leading_digits (c : N) (digits rest : jsstring) :
  digits <> [] ->
  forallb isDigit digits = true ->
  match rest with d :: _ => isDigit d = false | [] => True end ->
  startsWith (js "0x") (digits ++ rest) = false ->
  startsWith (js "0X") (digits ++ rest) = false ->
  colorHexToRGB (c :: digits ++ rest) = colorHexToRGB (c :: digits).
Proof.
  intros Hne Hd Hrest Hx HX. unfold colorHexToRGB, substr1. cbn [tl].
  rewrite (@parseInt_decimal digits rest) by assumption.
  assert (H0 : parseInt digits = toDouble (decimalValue digits)).
  { rewrite <- (app_nil_r digits) at 1.
    apply (@parseInt_decimal digits []); auto using digits_no_hex_prefix. }
  now rewrite H0.
Qed.

Lemma colorHexToRGB_leading_digits_witness :
  colorHexToRGB (js "#12abcd") = colorHexToRGB (js "#12")
  /\ colorHexToRGB (js "#12") = js "0, 0, 12".
Proof.
  split; [|reflexivity].
  apply (@colorHexToRGB_leading_digits 35 (js "12") (js "abcd"));
    try reflexivity. discriminate.
Defined.

Lemma oneOf_true s l : oneOf s l = true -> In s l.
Proof.
  unfold oneOf. intros H. apply existsb_exists in H as (x & Hx & E).
  apply str_eqb_eq in E. now subst.
Qed.

Lemma valueForVariable_throw variable e :
  valueForVariable variable = Throw e ->
  e = TypeError
  /\ In (type variable) [js "select"; js "dropdown"; js "image"].
Proof.
  unfold valueForVariable.
  destruct (oneOf (type variable) [js "select"; js "dropdown"; js "image"])
    eqn:Hone.
  - intros H. split; [|now apply oneOf_true].
    destruct (options variable) as [opts|]; [|congruence].
    destruct (find _ opts); [discriminate | congruence].
  - destruct (oneOf (type variable) [js "number"; js "range"]); discriminate.
Qed.

(** X5. Resolving a variable throws only for the types [select],
    [dropdown] and [image], and then a [TypeError]; every other type
    resolves. *)
Theorem valueForVariable_throws_only_options (variable : MetaVariable) :
  (forall e, valueForVariable variable = Throw e ->
             e = TypeError
             /\ In (type variable) [js "select"; js "dropdown"; js "image"])
  /\ (~ In (type variable) [js "select"; js "dropdown"; js "image"] ->
      exists value, valueForVariable variable = Ok value).
Proof.
  split; [apply valueForVariable_throw|].
  intros Hnot. destruct (valueForVariable variable) as [value | e] eqn:E.
  - now exists value.
  - apply valueForVariable_throw in E as [_ Hin]. contradiction.
Qed.

Lemma valueForVariable_throws_only_options_witness :
  exists value, valueForVariable Sample.var_price = Ok value.
Proof.
  apply (valueForVariable_throws_only_options Sample.var_price).
  intros [H | [H | [H | []]]]; vm_compute in H; discriminate.
Defined.

Lemma assignVariables_uso styleText metadata vs :
  preprocessor metadata = Some (js "uso") ->
  vars metadata = Some vs ->
  assignVariables styleText metadata
  = fold_left (reduceStep vs) (map fst vs) (Ok styleText).
Proof. intros Hp Hv. unfold assignVariables. now rewrite Hp, Hv. Qed.

Lemma reduce_throw vs names : forall e,
  fold_left (reduceStep vs) names (Throw e) = Throw e.
Proof. induction names as [|n names IH]; intros e; [reflexivity | apply IH]. Qed.

Lemma substituteVariable_no_placeholder vs style name style' :
  includes style (js "/*[[") = false ->
  substituteVariable vs style name = Ok style' ->
  style' = style.
Proof.
  intros Hinc. unfold substituteVariable.
  destruct (lookupVar vs name) as [v|]; [|discriminate].
  destruct (valueForVariable v) as [value|]; [|discriminate].
  cbn [bind].
  assert (H1 : replaceAll style (js "/*[[" ++ name ++ js "]]*/") value
               = style).
  { unfold replaceAll, replaceGlobal. apply replace_literal_absent.
    exact (includes_prefix _ (js "/*[[") (name ++ js "]]*/") Hinc). }
  rewrite H1.
  destruct (str_eqb (type v) (js "color")); intros H.
  - injection H as <-.
    unfold replaceAll, replaceGlobal. apply replace_literal_absent.
    exact (includes_prefix _ (js "/*[[") (name ++ js "-rgb]]*/") Hinc).
  - now injection H as <-.
Qed.

(** X6. A text without the opening [/*[[] of a placeholder comes out of
    the resolver unchanged, for every metadata with which the resolver
    returns. *)
Theorem assignVariables_no_placeholder (styleText : jsstring)
    (metadata : Metadata) (out : jsstring) :
  includes styleText (js "/*[[") = false ->
  assignVariables styleText metadata = Ok out ->
  out = styleText.
Proof.
  intros Hinc. unfold assignVariables.
  destruct (preprocessor metadata) as [p|]; [|now intros [= <-]].
  destruct (str_eqb p (js "default")); [now intros [= <-]|].
  destruct (str_eqb p (js "uso")); [|discriminate].
  destruct (vars metadata) as [vs|]; [|discriminate].
  fold (reduceStep vs).
  generalize (map fst vs) as names.
  induction names as [|n names IH]; cbn [fold_left].
  - now intros [= <-].
  - unfold reduceStep at 2. cbn [bind].
    destruct (substituteVariable vs styleText n) as [style'|e] eqn:E.
    + apply (substituteVariable_no_placeholder _ _ _ Hinc) in E. subst style'.
      exact IH.
    + rewrite reduce_throw. discriminate.
Qed.

Lemma assignVariables_no_placeholder_witness :
  assignVariables (js "a{color:red}") Sample.meta_price = Ok (js "a{color:red}").
Proof.
  destruct (assignVariables (js "a{color:red}") Sample.meta_price)
    as [out|e] eqn:E; [|vm_compute in E; discriminate].
  f_equal.
  apply (assignVariables_no_placeholder (js "a{color:red}") Sample.meta_price);
    [reflexivity | exact E].
Defined.

Lemma okOrTypeError_step vs acc name :
  okOrTypeError acc -> okOrTypeError (reduceStep vs acc name).
Proof.
  destruct acc as [style|e]; [intros _ | exact (fun H => H)].
  unfold reduceStep, substituteVariable. cbn [bind].
  destruct (lookupVar vs name) as [v|]; [|reflexivity].
  destruct (valueForVariable v) as [value|e] eqn:E.
  - cbn [bind]. destruct (str_eqb (type v) (js "color")); exact I.
  - apply valueForVariable_throw in E as [-> _]. reflexivity.
Qed.

Lemma reduce_unresolved vs name v e :
  lookupVar vs name = Some v ->
  valueForVariable v = Throw e ->
  forall names acc,
    In name names ->
    okOrTypeError acc ->
    fold_left (reduceStep vs) names acc = Throw TypeError.
Proof.
  intros Hlook Hthrow. induction names as [|n names IH]; intros acc Hin Hacc;
    [contradiction|].
  cbn [fold_left]. destruct Hin as [-> | Hin].
  - replace (reduceStep vs acc name) with (@Throw jsstring TypeError);
      [apply reduce_throw|].
    destruct acc as [style|e'].
    + unfold reduceStep, substituteVariable. cbn [bind].
      rewrite Hlook, Hthrow.
      apply valueForVariable_throw in Hthrow as [-> _]. reflexivity.
    + cbn in Hacc. now subst e'.
  - apply IH; [assumption | now apply okOrTypeError_step].
Qed.

(** X7. In a [uso] style, one variable of type [select], [dropdown] or
    [image] whose default names no option makes the resolver throw for
    every text, also for a text that does not use the variable. *)
Theorem assignVariables_unresolved (styleText : jsstring)
    (metadata : Metadata) (vs : list (jsstring * MetaVariable))
    (name : jsstring) (v : MetaVariable) (e : exn) :
  preprocessor metadata = Some (js "uso") ->
  vars metadata = Some vs ->
  In name (map fst vs) ->
  lookupVar vs name = Some v ->
  valueForVariable v = Throw e ->
  assignVariables styleText metadata = Throw TypeError.
Proof.
  intros Hp Hv Hin Hlook Hthrow.
  rewrite (assignVariables_uso _ _ Hp Hv).
  now apply (reduce_unresolved _ _ Hlook Hthrow).
Qed.

Lemma assignVariables_unresolved_witness :
  assignVariables (js "a{color:red}") Sample.meta_theme_missing
  = Throw TypeError.
Proof.
  apply (assignVariables_unresolved
           (js "a{color:red}") Sample.meta_theme_missing (js "theme")
           (vs := [(js "price", Sample.var_price);
                   (js "theme", Sample.var_theme_missing)])
           (v := Sample.var_theme_missing)
           (e := TypeError));
    try reflexivity.
  right. left. reflexivity.
Defined.

Lemma lookupVar_other n v vs m :
  m <> n -> lookupVar ((n, v) :: vs) m = lookupVar vs m.
Proof.
  intros H. cbn [lookupVar].
  replace (str_eqb n m) with false; [reflexivity|].
  symmetry. apply str_eqb_neq. congruence.
Qed.

Lemma reduce_ext vs vs' names : forall acc,
  (forall m, In m names -> lookupVar vs m = lookupVar vs' m) ->
  fold_left (reduceStep vs) names acc = fold_left (reduceStep vs') names acc.
Proof.
  induction names as [|n names IH]; intros acc H; [reflexivity|].
  cbn [fold_left].
  replace (reduceStep vs acc n) with (reduceStep vs' acc n).
  - apply IH. intros m Hm. apply H. now right.
  - unfold reduceStep, substituteVariable. destruct acc; [|reflexivity].
    cbn [bind]. rewrite (H n); [reflexivity | now left].
Qed.

(** X8. Variables are substituted one after the other in the order of
    [vars]: the first variable is put into the text, and the remaining
    variables into the result. *)
Theorem assignVariables_in_order (styleText : jsstring) (name : jsstring)
    (v : MetaVariable) (vs : list (jsstring * MetaVariable)) :
  uniqueNames ((name, v) :: vs) ->
  assignVariables styleText
    {| preprocessor := Some (js "uso"); vars := Some ((name, v) :: vs) |}
  = (style <- substituteVariable [(name, v)] styleText name ;;
     assignVariables style
       {| preprocessor := Some (js "uso"); vars := Some vs |}).
Proof.
  intros Huniq. unfold uniqueNames in Huniq. cbn [map fst] in Huniq.
  apply NoDup_cons_iff in Huniq as [Hnotin _].
  rewrite (assignVariables_uso _ _ (vs := (name, v) :: vs))
    by reflexivity.
  cbn [map fst fold_left].
  assert (Hfirst : reduceStep ((name, v) :: vs) (Ok styleText) name
                   = substituteVariable [(name, v)] styleText name).
  { unfold reduceStep, substituteVariable. cbn [bind lookupVar].
    now rewrite str_eqb_refl. }
  rewrite Hfirst.
  destruct (substituteVariable [(name, v)] styleText name) as [style|e].
  - cbn [bind].
    rewrite (assignVariables_uso _ _ (vs := vs)) by reflexivity.
    apply reduce_ext. intros m Hm. apply lookupVar_other.
    intros ->. contradiction.
  - cbn [bind]. apply reduce_throw.
Qed.

Lemma assignVariables_in_order_witness :
  assignVariables (js "a{color:/*[[theme]]*/;content:'/*[[price]]*/'}")
    {| preprocessor := Some (js "uso");
       vars := Some [(js "theme", Sample.var_theme);
                     (js "price", Sample.var_price)] |}
  = Ok (js "a{color:#222;content:'$5'}").
Proof.
  rewrite assignVariables_in_order.
  - reflexivity.
  - repeat constructor; cbn; intuition discriminate.
Defined.

(** ** Textual importance escalation *)

Lemma lazyValue_no_line_end s :
  includes s [c_semi; c_lf] = false -> lazyValue s = None.
Proof.
  induction s as [|c s IH]; intros H; [reflexivity|].
  apply includes_cons_false in H as [Hsw Hinc].
  cbn [lazyValue]. rewrite (IH Hinc).
  replace ((c =? c_semi)%N
           && match s with d :: _ => (d =? c_lf)%N | [] => false end)
    with false.
  - now destruct (c =? c_bang)%N.
  - symmetry. cbn [startsWith] in Hsw.
    rewrite (N.eqb_sym c_semi c) in Hsw.
    destruct (c =? c_semi)%N; [|reflexivity].
    destruct s as [|d s]; [reflexivity|].
    rewrite (N.eqb_sym c_lf d), andb_true_r in Hsw. exact Hsw.
Qed.

(** X11. The pattern needs a semicolon right before a line feed: a text
    without one, such as a style sheet written on one line or with
    declarations closed by the brace, is returned as it is. *)
Theorem adjustPriority_no_line_end (styleText : jsstring) :
  includes styleText [c_semi; c_lf] = false ->
  adjustPriority styleText = styleText.
Proof.
  induction styleText as [|c s IH]; intros H; [reflexivity|].
  pose proof H as H'.
  apply includes_cons_false in H' as [_ Hinc].
  rewrite adjustPriority_copy.
  - now rewrite IH.
  - rewrite re_declaration_eq. destruct (c =? c_colon)%N; [|reflexivity].
    now rewrite (lazyValue_no_line_end _ Hinc).
Qed.

Lemma adjustPriority_no_line_end_witness :
  adjustPriority (js "a{color:red;}") = js "a{color:red;}".
Proof. apply adjustPriority_no_line_end. reflexivity. Defined.

Lemma noMatch_no_colon p t :
  forallb (fun c => negb (c =? c_colon)%N) p = true -> noMatch p t.
Proof.
  induction p as [|c p IH]; intros H; [exact I|].
  cbn [forallb] in H. apply andb_true_iff in H as [Hc Hp].
  cbn [noMatch app]. split; [|now apply IH].
  rewrite re_declaration_eq.
  now destruct (c =? c_colon)%N.
Qed.

Lemma lazyValue_value v rest :
  forallb (fun c => negb (c =? c_bang)%N && negb (c =? c_semi)%N) v = true ->
  lazyValue (v ++ c_semi :: c_lf :: rest) = Some (List.length v).
Proof.
  induction v as [|c v IH]; intros H; [reflexivity|].
  cbn [forallb] in H. apply andb_true_iff in H as [Hc Hv].
  apply andb_true_iff in Hc as [Hbang Hsemi].
  apply negb_true_iff in Hbang, Hsemi.
  cbn [app lazyValue List.length]. rewrite Hsemi, Hbang, (IH Hv). reflexivity.
Qed.

Lemma firstn_length_app {A} (v l : list A) :
  firstn (List.length v) (v ++ l) = v.
Proof. induction v as [|c v IH]; [reflexivity | cbn; now rewrite IH]. Qed.

Lemma skipn_length_app {A} (v l : list A) a b :
  skipn (List.length v + 2) (v ++ a :: b :: l) = l.
Proof. induction v as [|c v IH]; [reflexivity | exact IH]. Qed.

(** X12. A declaration line is marked important: after a text without a
    colon, a colon and a value that holds neither an exclamation mark nor
    a semicolon, closed by a semicolon and a line feed, get the marker
    before the semicolon; the rewrite goes on after the line feed. *)
Theorem adjustPriority_declaration_line (before value rest : jsstring) :
  forallb (fun c => negb (c =? c_colon)%N) before = true ->
  forallb (fun c => negb (c =? c_bang)%N && negb (c =? c_semi)%N) value
  = true ->
  adjustPriority (before ++ c_colon :: value ++ c_semi :: c_lf :: rest)
  = before ++ c_colon :: value ++ js " !important;" ++ [c_lf]
    ++ adjustPriority rest.
Proof.
  intros Hb Hv.
  rewrite adjustPriority_noMatch by now apply noMatch_no_colon.
  rewrite (adjustPriority_match _ (lazyValue_value _ rest Hv)).
  rewrite firstn_length_app, skipn_length_app. reflexivity.
Qed.

Lemma adjustPriority_declaration_line_witness :
  adjustPriority (js "  color: red;" ++ [c_lf] ++ js "}")
  = js "  color: red !important;" ++ [c_lf] ++ js "}".
Proof.
  apply (adjustPriority_declaration_line
           (js "  color") (js " red") (js "}")); reflexivity.
Defined.

(** ** The third walk *)

Lemma fixNode_atrule l name p block :
  fixNode (Atrule l name p block)
  = (p' <~ fixPrelude name p ;;
     block' <~ fixBlock block ;;
     retW (Atrule l name p' block')).
Proof. reflexivity. Qed.

Lemma fixNode_rule l p block :
  fixNode (Rule l p block)
  = (block' <~ mapW fixNode block ;; retW (Rule l p block')).
Proof. reflexivity. Qed.

Lemma mapW_id {A} (g : A -> walk A) l :
  Forall (fun x => g x = Ok (x, ([], []))) l ->
  mapW g l = Ok (l, ([], [])).
Proof.
  induction 1 as [|x xs Hx _ IH]; [reflexivity|].
  rewrite mapW_cons, Hx. cbn [bindW]. now rewrite IH.
Qed.

Lemma fixNode_no_document n :
  noDocumentRule n = true -> fixNode n = Ok (n, ([], [])).
Proof.
  induction n as [l name p block IH | l p block IH | |] using node_nested_ind;
    intros H; try reflexivity.
  - cbn [noDocumentRule] in H. apply andb_true_iff in H as [Hname Hb].
    rewrite fixNode_atrule.
    assert (Hp : fixPrelude name p = Ok (p, ([], []))).
    { unfold fixPrelude. rewrite Hname. now destruct p as [[?|?]|]. }
    rewrite Hp. cbn [bindW].
    destruct block as [children|]; [|reflexivity].
    cbn [fixBlock]. rewrite mapW_id; [reflexivity|].
    specialize (IH children eq_refl). rewrite forallb_forall in Hb.
    rewrite Forall_forall in IH |- *. intros x Hx. apply IH; auto.
  - cbn [noDocumentRule] in H. rewrite fixNode_rule.
    rewrite mapW_id; [reflexivity|].
    rewrite forallb_forall in H. rewrite Forall_forall in IH |- *.
    intros x Hx. apply IH; auto.
Qed.

Lemma markImportant_no_document n :
  noDocumentRule (markImportant n) = noDocumentRule n.
Proof.
  induction n as [l name p block IH | l p block IH | |] using node_nested_ind;
    cbn [markImportant noDocumentRule]; try reflexivity.
  - destruct block as [children |]; [|reflexivity].
    cbn [option_map]. now rewrite (forallb_map_same _ _ (IH children eq_refl)).
  - now rewrite (forallb_map_same _ _ IH).
Qed.

(** Whatever the third walk throws is a [TypeError]. *)
Lemma fixRegexp_throw f e : fixRegexp f = Throw e -> e = TypeError.
Proof.
  destruct f as [l name children | l value | type l text]; try discriminate.
  unfold fixRegexp. destruct (negb (str_eqb name (js "regexp")));
    [discriminate|].
  destruct children as [|arg rest]; [congruence|].
  destruct arg as [l' name' ch' | l' v | type' l' text']; try discriminate.
  destruct (negb (str_eqb v (escapeCSSRegExp v))); discriminate.
Qed.

Lemma bindW_throw {A B} (x : walk A) (f : A -> walk B) e :
  bindW x f = Throw e ->
  x = Throw e \/ exists a log, x = Ok (a, log) /\ f a = Throw e.
Proof.
  unfold bindW. destruct x as [[a [e1 w1]]|e']; [|intros [= ->]; now left].
  destruct (f a) as [[b [e2 w2]]|e'] eqn:E; [discriminate|].
  intros [= ->]. right. now exists a, (e1, w1).
Qed.

Lemma mapW_throw {A B} (g : A -> walk B) l e :
  Forall (fun x => forall e, g x = Throw e -> e = TypeError) l ->
  mapW g l = Throw e -> e = TypeError.
Proof.
  induction 1 as [|x xs Hx _ IH]; [discriminate|].
  rewrite mapW_cons. intros H.
  apply bindW_throw in H as [H | (y & log & _ & H)]; [now apply Hx|].
  apply bindW_throw in H as [H | (ys & log' & _ & H)];
    [now apply IH | discriminate].
Qed.

Lemma fixPrelude_throw name p e : fixPrelude name p = Throw e -> e = TypeError.
Proof.
  unfold fixPrelude. destruct p as [[children|text]|]; try discriminate.
  destruct (negb (isDocumentRule name)); [discriminate|].
  intros H. apply bindW_throw in H as [H | (? & ? & _ & H)]; [|discriminate].
  apply mapW_throw in H; [assumption|].
  apply Forall_forall. intros f _ e'. apply fixRegexp_throw.
Qed.

Lemma fixNode_throw n : forall e, fixNode n = Throw e -> e = TypeError.
Proof.
  induction n as [l name p block IH | l p block IH | |] using node_nested_ind;
    intros e H; try discriminate.
  - rewrite fixNode_atrule in H.
    apply bindW_throw in H as [H | (p' & ? & _ & H)];
      [now apply fixPrelude_throw in H|].
    apply bindW_throw in H as [H | (? & ? & _ & H)]; [|discriminate].
    destruct block as [children|]; [|discriminate].
    cbn [fixBlock] in H.
    apply bindW_throw in H as [H | (? & ? & _ & H)]; [|discriminate].
    apply mapW_throw in H; [assumption | exact (IH children eq_refl)].
  - rewrite fixNode_rule in H.
    apply bindW_throw in H as [H | (? & ? & _ & H)]; [|discriminate].
    now apply mapW_throw in H.
Qed.

Lemma mapW_throws_at {A B} (g : A -> walk B) x l :
  In x l ->
  g x = Throw TypeError ->
  (forall y e, g y = Throw e -> e = TypeError) ->
  mapW g l = Throw TypeError.
Proof.
  intros Hin Hx Hall. induction l as [|a l IH]; [contradiction|].
  rewrite mapW_cons.
  destruct (g a) as [[y [e1 w1]]|e] eqn:Ea.
  - destruct Hin as [-> | Hin]; [congruence|].
    cbn [bindW]. now rewrite (IH Hin).
  - apply Hall in Ea. now subst e.
Qed.

Lemma fixRegexp_empty f : emptyRegexp f -> fixRegexp f = Throw TypeError.
Proof. intros [l ->]. reflexivity. Qed.

Lemma fixNode_empty_call f n :
  PreludeChild f n -> emptyRegexp f -> fixNode n = Throw TypeError.
Proof.
  intros Hchild Hf.
  induction Hchild as [l name children block Hdoc Hin
                      | l name p children n Hin Hchild IH
                      | l p children n Hin Hchild IH].
  - rewrite fixNode_atrule. unfold fixPrelude. rewrite Hdoc. cbn [negb].
    rewrite (mapW_throws_at fixRegexp f children Hin (fixRegexp_empty Hf)
                            fixRegexp_throw).
    reflexivity.
  - rewrite fixNode_atrule.
    destruct (fixPrelude name p) as [[p' [e1 w1]]|e] eqn:Ep.
    + cbn [bindW fixBlock].
      rewrite (mapW_throws_at fixNode n children Hin IH fixNode_throw).
      reflexivity.
    + apply fixPrelude_throw in Ep. now subst e.
  - rewrite fixNode_rule.
    rewrite (mapW_throws_at fixNode n children Hin IH fixNode_throw).
    reflexivity.
Qed.

(** A second visit of a repaired call changes nothing and warns of
    nothing; the error of a bad argument is pushed again. *)
Lemma fixRegexp_again f f' es ws :
  fixRegexp f = Ok (f', (es, ws)) -> fixRegexp f' = Ok (f', (es, [])).
Proof.
  destruct f as [l name children | l value | type l text];
    try (intros [= <- <- <-]; reflexivity).
  unfold fixRegexp at 1.
  destruct (negb (str_eqb name (js "regexp"))) eqn:Hname.
  - intros [= <- <- <-]. unfold fixRegexp. now rewrite Hname.
  - destruct children as [|arg rest]; [discriminate|].
    destruct arg as [l' name' ch' | l' v | type' l' text'].
    + intros [= <- <- <-]. unfold fixRegexp. now rewrite Hname.
    + destruct (negb (str_eqb v (escapeCSSRegExp v)));
        intros [= <- <- <-]; unfold fixRegexp; rewrite Hname;
        rewrite escapeCSSRegExp_twice, str_eqb_refl; reflexivity.
    + intros [= <- <- <-]. unfold fixRegexp. now rewrite Hname.
Qed.

Lemma mapW_again {A} (g : A -> walk A) l :
  Forall (fun x => forall y es ws,
              g x = Ok (y, (es, ws)) -> g y = Ok (y, (es, []))) l ->
  forall l' es ws,
    mapW g l = Ok (l', (es, ws)) -> mapW g l' = Ok (l', (es, [])).
Proof.
  induction 1 as [|x xs Hx _ IH]; intros l' es ws H.
  - injection H as <- <- <-. reflexivity.
  - rewrite mapW_cons in H.
    apply bindW_ok in H as (y & e1 & w1 & e2 & w2 & Hy & H & -> & ->).
    apply bindW_ok in H as (ys & e3 & w3 & e4 & w4 & Hys & H & -> & ->).
    injection H as <- <- <-.
    rewrite mapW_cons, (Hx _ _ _ Hy). cbn [bindW].
    rewrite (IH _ _ _ Hys). reflexivity.
Qed.

Lemma fixPrelude_again name p p' es ws :
  fixPrelude name p = Ok (p', (es, ws)) ->
  fixPrelude name p' = Ok (p', (es, [])).
Proof.
  unfold fixPrelude at 1.
  destruct p as [[children|text]|]; try (intros [= <- <- <-]; reflexivity).
  destruct (negb (isDocumentRule name)) eqn:Hdoc.
  - intros [= <- <- <-]. unfold fixPrelude. now rewrite Hdoc.
  - intros H.
    apply bindW_ok in H as (ch' & e1 & w1 & e2 & w2 & Hch & H & -> & ->).
    injection H as <- <- <-.
    unfold fixPrelude. rewrite Hdoc.
    assert (HF : Forall (fun x => forall y es ws,
                             fixRegexp x = Ok (y, (es, ws)) ->
                             fixRegexp y = Ok (y, (es, []))) children).
    { apply Forall_forall. intros f _ y es ws. apply fixRegexp_again. }
    now rewrite (@mapW_again _ fixRegexp children HF ch' e1 w1 Hch).
Qed.

Lemma fixNode_again n : forall n' es ws,
  fixNode n = Ok (n', (es, ws)) -> fixNode n' = Ok (n', (es, [])).
Proof.
  induction n as [l name p block IH | l p block IH | |] using node_nested_ind;
    intros n' es ws H; try (injection H as <- <- <-; reflexivity).
  - rewrite fixNode_atrule in H.
    apply bindW_ok in H as (p' & e1 & w1 & e2 & w2 & Hp & H & -> & ->).
    apply bindW_ok in H as (b' & e3 & w3 & e4 & w4 & Hb & H & -> & ->).
    injection H as <- <- <-.
    rewrite fixNode_atrule, (fixPrelude_again _ _ Hp). cbn [bindW].
    destruct block as [children|].
    + cbn [fixBlock] in Hb.
      apply bindW_ok in Hb as (ch' & e5 & w5 & e6 & w6 & Hch & Hb & -> & ->).
      injection Hb as <- <- <-. cbn [fixBlock].
      now rewrite (@mapW_again _ fixNode children (IH children eq_refl) _ _ _ Hch).
    + injection Hb as <- <- <-. reflexivity.
  - rewrite fixNode_rule in H.
    apply bindW_ok in H as (b' & e1 & w1 & e2 & w2 & Hch & H & -> & ->).
    injection H as <- <- <-.
    now rewrite fixNode_rule, (@mapW_again _ fixNode block IH _ _ _ Hch).
Qed.

(** X16. The repair of [regexp()] arguments is done after one walk: a
    second walk over the repaired tree returns the same tree and pushes
    no warning (the errors of bad arguments are pushed again). *)
Theorem fix_walk_idempotent (ast ast' : StyleSheet) (es ws : list jsstring) :
  mapW fixNode ast = Ok (ast', (es, ws)) ->
  mapW fixNode ast' = Ok (ast', (es, [])).
Proof.
  apply (@mapW_again _ fixNode ast).
  apply Forall_forall. intros n _. apply fixNode_again.
Qed.

Lemma fix_walk_idempotent_witness :
  exists ast',
    mapW fixNode Sample.tree_regexp_fix
    = Ok (ast', ([], [js "1:23: Fixed escaping in regexp('a\d')"]))
    /\ mapW fixNode ast' = Ok (ast', ([], [])).
Proof.
  eexists. split; [reflexivity|].
  apply (@fix_walk_idempotent
           Sample.tree_regexp_fix _ []
           [js "1:23: Fixed escaping in regexp('a\d')"]).
  reflexivity.
Defined.

Section MoreValidate.
Variable parse : jsstring -> StyleSheet * list SyntaxError.
Variable matchDeclaration : node -> option MatchError.
Variable generate : StyleSheet -> jsstring.
Variable showSyntaxError : SyntaxError -> jsstring.

(** X13. Without an at-rule named [document] or [-moz-document], a
    style sheet that parses and validates comes back with no error and no
    warning, as the serialization of its tree with every declaration
    marked important and nothing else changed. *)
Theorem validate_without_document_rule (css : jsstring) (ast : StyleSheet) :
  parse css = (ast, []) ->
  flat_map (validateNode matchDeclaration) ast = [] ->
  forallb noDocumentRule ast = true ->
  validateAndTransformCSS parse matchDeclaration generate css
  = Ok {| errors := [];
          warnings := [];
          transformed := generate (map markImportant ast) |}.
Proof.
  intros Hparse Hvalid Hdoc.
  unfold validateAndTransformCSS. rewrite collectErrors_eq, Hparse.
  cbn [fst snd map app]. rewrite Hvalid.
  rewrite mapW_id; [reflexivity|].
  apply Forall_forall. intros x Hx.
  apply in_map_iff in Hx as (x0 & <- & Hx0).
  apply fixNode_no_document. rewrite markImportant_no_document.
  rewrite forallb_forall in Hdoc. auto.
Qed.

(** X14. A [regexp()] call without an argument in the prelude of a
    [document] or [-moz-document] rule makes the function throw a
    [TypeError] (the location of a missing first child is read) instead
    of returning errors. *)
Theorem validate_regexp_without_argument (css : jsstring)
    (ast : StyleSheet) (f : pnode) :
  parse css = (ast, []) ->
  flat_map (validateNode matchDeclaration) ast = [] ->
  InDocumentPrelude f ast ->
  emptyRegexp f ->
  validateAndTransformCSS parse matchDeclaration generate css
  = Throw TypeError.
Proof.
  intros Hparse Hvalid (n & Hn & Hchild) Hf.
  unfold validateAndTransformCSS. rewrite collectErrors_eq, Hparse.
  cbn [fst snd map app]. rewrite Hvalid.
  rewrite (mapW_throws_at fixNode (markImportant n) (map markImportant ast));
    [reflexivity | now apply in_map | | apply fixNode_throw].
  apply fixNode_empty_call with (f := f);
    [now apply markImportant_child | assumption].
Qed.

(** X15. When the parse and the grammar raise no error and every
    [regexp()] call has an argument, the function returns, and
    [transformed] is the serialization of a tree in which every
    declaration is marked important. *)
Theorem validate_all_important (css : jsstring) (ast : StyleSheet) :
  parse css = (ast, []) ->
  flat_map (validateNode matchDeclaration) ast = [] ->
  forallb callsHaveArgument ast = true ->
  exists r ast',
    validateAndTransformCSS parse matchDeclaration generate css = Ok r
    /\ transformed r = generate ast'
    /\ forallb allImportant ast' = true.
Proof.
  intros Hparse Hvalid Hargs.
  unfold validateAndTransformCSS. rewrite collectErrors_eq, Hparse.
  cbn [fst snd map app]. rewrite Hvalid.
  destruct (mapW_total fixNode (l := map markImportant ast))
    as (ast' & [es ws] & Hwalk).
  { apply Forall_forall. intros x Hx.
    apply in_map_iff in Hx as (x0 & <- & Hx0).
    apply fixNode_total. rewrite markImportant_calls.
    rewrite forallb_forall in Hargs. auto. }
  rewrite Hwalk. eexists; exists ast'. split; [reflexivity|].
  cbn [transformed]. split; [reflexivity|].
  transitivity (forallb allImportant (map markImportant ast)).
  - eapply mapW_forallb; [|exact Hwalk].
    apply Forall_forall. intros x _ y log. apply fixNode_allImportant.
  - apply forallb_map_true, Forall_forall. intros x _.
    apply markImportant_all.
Qed.

(** X19. A style with a [regexp()] call whose first argument is no
    string literal is not written: [main] throws the validation errors it
    got back, under the heading that names the file. *)
Theorem processStyle_regexp_error (filename rawStyle css : jsstring)
    (metadata : Metadata) (ast : StyleSheet) (f arg : pnode) :
  assignVariables rawStyle metadata = Ok css ->
  parse css = (ast, []) ->
  flat_map (validateNode matchDeclaration) ast = [] ->
  forallb callsHaveArgument ast = true ->
  InDocumentPrelude f ast ->
  badRegexp f arg ->
  exists listed,
    processStyle parse matchDeclaration generate showSyntaxError
                 filename rawStyle metadata
    = Throw (Error (js "CSS Validation Errors: " ++ filename ++ [c_lf]
                    ++ join [c_lf] listed))
    /\ In (regexpMessage arg) listed.
Proof.
  intros Hassign Hparse Hvalid Hargs (n & Hn & Hchild) Hbad.
  unfold processStyle. rewrite Hassign. cbn [bind].
  unfold validateAndTransformCSS. rewrite collectErrors_eq, Hparse.
  cbn [fst snd map app]. rewrite Hvalid.
  destruct (mapW_total fixNode (l := map markImportant ast))
    as (ast' & [es ws] & Hwalk).
  { apply Forall_forall. intros x Hx.
    apply in_map_iff in Hx as (x0 & <- & Hx0).
    apply fixNode_total. rewrite markImportant_calls.
    rewrite forallb_forall in Hargs. auto. }
  rewrite Hwalk. cbn [bind errors app].
  destruct (mapW_in _ _ (markImportant n) Hwalk (in_map _ _ _ Hn))
    as (n' & ex & wx & Hfix & Hn' & Hincl).
  destruct (fixNode_bad (markImportant_child Hchild) Hbad Hfix)
    as [Hmsg _].
  apply Hincl in Hmsg.
  destruct es as [|e0 es]; [contradiction|].
  exists (e0 :: es). split; [|assumption].
  cbn [map]. do 5 f_equal.
  rewrite map_map. cbn [showEntry]. now rewrite map_id.
Qed.

End MoreValidate.

Lemma validate_without_document_rule_witness :
  validateAndTransformCSS Sample.parse Sample.matchDeclaration Sample.generate
                          Sample.doc_red
  = Ok {| errors := [];
          warnings := [];
          transformed := Sample.generate (map markImportant Sample.tree_red) |}.
Proof.
  apply (validate_without_document_rule
           Sample.parse Sample.matchDeclaration Sample.generate
           Sample.doc_red (ast := Sample.tree_red)); reflexivity.
Defined.

Lemma validate_regexp_without_argument_witness :
  validateAndTransformCSS Sample.parse_empty_call Sample.matchDeclaration
                          Sample.generate Sample.doc_regexp_empty
  = Throw TypeError.
Proof.
  apply (validate_regexp_without_argument
           Sample.parse_empty_call Sample.matchDeclaration Sample.generate
           Sample.doc_regexp_empty
           (ast := Sample.tree_regexp_empty)
           (f := Sample.call_regexp_empty)).
  - reflexivity.
  - reflexivity.
  - eexists. split; [left; reflexivity|].
    apply pc_here; [reflexivity | left; reflexivity].
  - eexists. reflexivity.
Defined.

Lemma validate_all_important_witness :
  exists r ast',
    validateAndTransformCSS Sample.parse Sample.matchDeclaration
                            Sample.generate Sample.doc_regexp_fix = Ok r
    /\ transformed r = Sample.generate ast'
    /\ forallb allImportant ast' = true.
Proof.
  apply (validate_all_important
           Sample.parse Sample.matchDeclaration Sample.generate
           Sample.doc_regexp_fix (ast := Sample.tree_regexp_fix));
    reflexivity.
Defined.

Lemma processStyle_regexp_error_witness :
  exists listed,
    processStyle Sample.parse Sample.matchDeclaration Sample.generate
                 se_message (js "style.user.css") Sample.doc_regexp_ident
                 Sample.meta_absent
    = Throw (Error (js "CSS Validation Errors: style.user.css" ++ [c_lf]
                    ++ join [c_lf] listed))
    /\ In (js "1:23: regexp() argument must be a String") listed.
Proof.
  apply (processStyle_regexp_error
           Sample.parse Sample.matchDeclaration Sample.generate se_message
           (js "style.user.css") Sample.doc_regexp_ident Sample.meta_absent
           (css := Sample.doc_regexp_ident)
           (ast := Sample.tree_regexp_ident)
           (f := Sample.call_regexp_ident)
           (arg := OtherNode (js "Identifier") (Sample.at_ 1 23) (js "x"))).
  - reflexivity.
  - reflexivity.
  - reflexivity.
  - reflexivity.
  - eexists. split; [left; reflexivity|].
    apply pc_here; [reflexivity | left; reflexivity].
  - eexists; eexists. split; reflexivity.
Defined.

(** ** The lists of [main] *)

Lemma splitLines_line x t :
  noLineFeed x = true -> splitLines (x ++ c_lf :: t) = x :: splitLines t.
Proof.
  induction x as [|c x IH]; intros H; [reflexivity|].
  cbn [noLineFeed forallb] in H. apply andb_true_iff in H as [Hc Hx].
  apply negb_true_iff in Hc.
  cbn [app splitLines]. rewrite Hc. fold (noLineFeed x) in Hx.
  now rewrite (IH Hx).
Qed.

Lemma splitLines_last x : noLineFeed x = true -> splitLines x = [x].
Proof.
  induction x as [|c x IH]; intros H; [reflexivity|].
  cbn [noLineFeed forallb] in H. apply andb_true_iff in H as [Hc Hx].
  apply negb_true_iff in Hc.
  cbn [splitLines]. rewrite Hc. fold (noLineFeed x) in Hx.
  now rewrite (IH Hx).
Qed.

Lemma splitLines_join ls :
  ls <> [] ->
  Forall (fun l => noLineFeed l = true) ls ->
  splitLines (join [c_lf] ls) = ls.
Proof.
  intros Hne H. induction H as [|x xs Hx Hxs IH]; [contradiction|].
  destruct xs as [|y xs].
  - now apply splitLines_last.
  - change (join [c_lf] (x :: y :: xs))
      with (x ++ c_lf :: join [c_lf] (y :: xs)).
    rewrite (splitLines_line _ _ Hx). f_equal. apply IH. discriminate.
Qed.

Lemma trimStart_nil s :
  trimStart s = [] <-> forallb isWhiteSpace s = true.
Proof.
  induction s as [|c s IH]; [split; reflexivity|].
  cbn [trimStart forallb]. destruct (isWhiteSpace c).
  - exact IH.
  - split; discriminate.
Qed.

Lemma trimStart_head s c t : trimStart s = c :: t -> isWhiteSpace c = false.
Proof.
  induction s as [|d s IH]; [discriminate|].
  cbn [trimStart]. destruct (isWhiteSpace d) eqn:E; [exact IH|].
  intros [= <- _]. exact E.
Qed.

Lemma trim_nonBlank url :
  (0 <? List.length (trim url))%nat = nonBlank url.
Proof.
  unfold trim, nonBlank.
  destruct (trimStart url) as [|c t] eqn:E.
  - cbn. apply trimStart_nil in E. symmetry.
    apply not_true_is_false. intros H.
    apply existsb_exists in H as (x & Hx & Hnw).
    rewrite forallb_forall in E. rewrite (E x Hx) in Hnw. discriminate.
  - pose proof (trimStart_head _ E) as Hc.
    assert (Hin : In c url).
    { clear Hc. revert E. induction url as [|d url IH]; [discriminate|].
      cbn [trimStart]. destruct (isWhiteSpace d).
      - intros E. right. now apply IH.
      - intros [= -> _]. now left. }
    assert (Hex : existsb (fun c => negb (isWhiteSpace c)) url = true).
    { apply existsb_exists. exists c. now rewrite Hc. }
    rewrite Hex.
    destruct (trimStart (rev (c :: t))) as [|d r] eqn:E'.
    + apply trimStart_nil in E'. rewrite forallb_forall in E'.
      rewrite (E' c) in Hc; [discriminate|].
      apply in_rev. rewrite rev_involutive. now left.
    + rewrite length_rev. reflexivity.
Qed.

(** X17. From a file of lines, [main] takes the lines that hold
    something other than white space, in order and as they are written;
    empty and blank lines are dropped. *)
Theorem styleUrls_lines (lines : list jsstring) :
  Forall (fun l => noLineFeed l = true) lines ->
  styleUrls (join [c_lf] lines) = filter nonBlank lines.
Proof.
  intros H. unfold styleUrls.
  rewrite (filter_ext _ nonBlank) by apply trim_nonBlank.
  destruct lines as [|x xs]; [reflexivity|].
  rewrite splitLines_join; [reflexivity | discriminate | assumption].
Qed.

Lemma styleUrls_lines_witness :
  styleUrls (js "https://a.example/x.user.css" ++ [c_lf] ++ js "  "
             ++ [c_lf] ++ js "file:///y.user.css" ++ [c_lf])
  = [js "https://a.example/x.user.css"; js "file:///y.user.css"].
Proof.
  apply (@styleUrls_lines
           [js "https://a.example/x.user.css"; js "  ";
            js "file:///y.user.css"; []]).
  repeat constructor.
Defined.

Lemma noLineFeed_app a b :
  noLineFeed (a ++ b) = noLineFeed a && noLineFeed b.
Proof. apply forallb_app. Qed.

Lemma join_snoc_empty ls :
  ls <> [] -> join [c_lf] ls ++ [c_lf] = join [c_lf] (ls ++ [[]]).
Proof.
  induction ls as [|x xs IH]; [contradiction|]. intros _.
  destruct xs as [|y xs].
  - reflexivity.
  - change (join [c_lf] (x :: y :: xs))
      with (x ++ [c_lf] ++ join [c_lf] (y :: xs)).
    change (join [c_lf] ((x :: y :: xs) ++ [[]]))
      with (x ++ [c_lf] ++ join [c_lf] ((y :: xs) ++ [[]])).
    rewrite <- IH by discriminate. now rewrite <- !app_assoc.
Qed.

(** X18. The imports file holds one [@import] line per style, in the
    order of the styles, each closed by a line feed: split at the line
    feeds it gives back the import lines and an empty last piece. *)
Theorem importsFile_lines (relatives : list jsstring) :
  relatives <> [] ->
  Forall (fun r => noLineFeed r = true) relatives ->
  splitLines (importsFile relatives) = map importLine relatives ++ [[]].
Proof.
  intros Hne H. unfold importsFile.
  rewrite join_snoc_empty by (destruct relatives; [contradiction | discriminate]).
  apply splitLines_join; [now destruct (map importLine relatives)|].
  apply Forall_app. split; [|repeat constructor].
  apply Forall_forall. intros l Hl.
  apply in_map_iff in Hl as (r & <- & Hr).
  rewrite Forall_forall in H. unfold importLine.
  rewrite !noLineFeed_app, (H r Hr). reflexivity.
Qed.

Lemma importsFile_lines_witness :
  splitLines (importsFile [js "styles/x.user.css"; js "styles/y.user.css"])
  = [importLine (js "styles/x.user.css");
     importLine (js "styles/y.user.css"); []].
Proof.
  apply (@importsFile_lines [js "styles/x.user.css"; js "styles/y.user.css"]).
  - discriminate.
  - repeat constructor.
Defined.

(** ** The triple of a color, the ignored errors, the warnings *)

Lemma plain_app a b : plain (a ++ b) = plain a && plain b.
Proof. apply forallb_app. Qed.

Lemma showZ_byte_plain z : (0 <= z <= 255)%Z -> plain (showZ z) = true.
Proof.
  intros Hz.
  assert (Hall : forallb (fun n => plain (showZ (Z.of_nat n))) (seq 0 256)
                 = true) by (vm_compute; reflexivity).
  rewrite forallb_forall in Hall.
  rewrite <- (Z2Nat.id z) by lia. apply Hall, in_seq. lia.
Qed.

Lemma colorHexToRGB_plain hexColor : plain (colorHexToRGB hexColor) = true.
Proof.
  unfold colorHexToRGB. rewrite !plain_app.
  rewrite !showZ_byte_plain; [reflexivity | | |];
    rewrite ?byte_of_shift, ?land_255 by lia;
    match goal with
    | |- (0 <= ?x mod 2 ^ 8 <= 255)%Z =>
      pose proof (Z.mod_pos_bound x (2 ^ 8) eq_refl); lia
    end.
Qed.

(** X20. The placeholder [/*[[name-rgb]]*/] of a color variable is
    replaced literally, whatever the value of the variable: the triple
    [R, G, B] holds no dollar sign. *)
Theorem replaceAll_rgb_literal (str name hexColor : jsstring) :
  replaceAll str (js "/*[[" ++ name ++ js "-rgb]]*/") (colorHexToRGB hexColor)
  = literalReplaceAll str (js "/*[[" ++ name ++ js "-rgb]]*/")
                      (colorHexToRGB hexColor).
Proof.
  apply replace_plain_literal; [discriminate | apply colorHexToRGB_plain].
Qed.

Lemma fixRegexp_changed f f' es ws :
  fixRegexp f = Ok (f', (es, ws)) -> (ws = [] <-> f' = f).
Proof.
  destruct f as [l name children | l value | type l text];
    try (intros [= <- <- <-]; split; reflexivity).
  unfold fixRegexp.
  destruct (negb (str_eqb name (js "regexp")));
    [intros [= <- <- <-]; split; reflexivity|].
  destruct children as [|arg rest]; [discriminate|].
  destruct arg as [l' name' ch' | l' v | type' l' text'];
    try (intros [= <- <- <-]; split; reflexivity).
  destruct (str_eqb v (escapeCSSRegExp v)) eqn:E; cbn [negb];
    intros [= <- <- <-].
  - apply str_eqb_eq in E. rewrite <- E. split; reflexivity.
  - apply str_eqb_neq in E. split; [discriminate|].
    intros [= H]. now symmetry in H.
Qed.

Lemma mapW_changed {A} (g : A -> walk A) l :
  Forall (fun x => forall y es ws,
              g x = Ok (y, (es, ws)) -> (ws = [] <-> y = x)) l ->
  forall l' es ws,
    mapW g l = Ok (l', (es, ws)) -> (ws = [] <-> l' = l).
Proof.
  induction 1 as [|x xs Hx _ IH]; intros l' es ws H.
  - injection H as <- <- <-. split; reflexivity.
  - rewrite mapW_cons in H.
    apply bindW_ok in H as (y & e1 & w1 & e2 & w2 & Hy & H & -> & ->).
    apply bindW_ok in H as (ys & e3 & w3 & e4 & w4 & Hys & H & -> & ->).
    injection H as <- <- <-. rewrite app_nil_r.
    specialize (Hx _ _ _ Hy). specialize (IH _ _ _ Hys). split.
    + intros E. apply app_eq_nil in E as [E1 E3].
      f_equal; [now apply Hx | now apply IH].
    + intros [= E1 E3]. apply Hx in E1. apply IH in E3. now subst.
Qed.

Lemma fixPrelude_changed name p p' es ws :
  fixPrelude name p = Ok (p', (es, ws)) -> (ws = [] <-> p' = p).
Proof.
  unfold fixPrelude.
  destruct p as [[children|text]|];
    try (intros [= <- <- <-]; split; reflexivity).
  destruct (negb (isDocumentRule name));
    [intros [= <- <- <-]; split; reflexivity|].
  intros H.
  apply bindW_ok in H as (ch' & e1 & w1 & e2 & w2 & Hch & H & -> & ->).
  injection H as <- <- <-. rewrite app_nil_r.
  assert (HF : Forall (fun x => forall y es ws,
                           fixRegexp x = Ok (y, (es, ws)) ->
                           (ws = [] <-> y = x)) children).
  { apply Forall_forall. intros f _ y es ws. apply fixRegexp_changed. }
  rewrite (@mapW_changed _ fixRegexp children HF ch' e1 w1 Hch).
  split; [now intros -> | now intros [= ->]].
Qed.

Lemma fixNode_changed n : forall n' es ws,
  fixNode n = Ok (n', (es, ws)) -> (ws = [] <-> n' = n).
Proof.
  induction n as [l name p block IH | l p block IH | |] using node_nested_ind;
    intros n' es ws H; try (injection H as <- <- <-; split; reflexivity).
  - rewrite fixNode_atrule in H.
    apply bindW_ok in H as (p' & e1 & w1 & e2 & w2 & Hp & H & -> & ->).
    apply bindW_ok in H as (b' & e3 & w3 & e4 & w4 & Hb & H & -> & ->).
    injection H as <- <- <-. rewrite app_nil_r.
    pose proof (fixPrelude_changed _ _ Hp) as Hpc.
    assert (Hbc : w3 = [] <-> b' = block).
    { destruct block as [children|].
      - cbn [fixBlock] in Hb.
        apply bindW_ok in Hb as (ch' & e5 & w5 & e6 & w6 & Hch & Hb & -> & ->).
        injection Hb as <- <- <-. rewrite app_nil_r.
        rewrite (@mapW_changed _ fixNode children (IH children eq_refl)
                               ch' e5 w5 Hch).
        split; [now intros -> | now intros [= ->]].
      - injection Hb as <- <- <-. split; reflexivity. }
    split.
    + intros E. apply app_eq_nil in E as [E1 E3].
      apply Hpc in E1. apply Hbc in E3. now subst.
    + intros [= E1 E3]. apply Hpc in E1. apply Hbc in E3. now subst.
  - rewrite fixNode_rule in H.
    apply bindW_ok in H as (b' & e1 & w1 & e2 & w2 & Hch & H & -> & ->).
    injection H as <- <- <-. rewrite app_nil_r.
    rewrite (@mapW_changed _ fixNode block IH b' e1 w1 Hch).
    split; [now intros -> | now intros [= ->]].
Qed.

(** X22. The walk warns exactly when it repairs: it pushes no warning
    if and only if it returns the tree as it got it. *)
Theorem fix_walk_warns_iff_changed (ast ast' : StyleSheet)
    (es ws : list jsstring) :
  mapW fixNode ast = Ok (ast', (es, ws)) -> (ws = [] <-> ast' = ast).
Proof.
  apply (@mapW_changed _ fixNode ast).
  apply Forall_forall. intros n _. apply fixNode_changed.
Qed.

Lemma fix_walk_warns_iff_changed_witness :
  exists ast' es ws,
    mapW fixNode Sample.tree_regexp_fix = Ok (ast', (es, ws))
    /\ ws <> [] /\ ast' <> Sample.tree_regexp_fix.
Proof.
  eexists; eexists; eexists. split; [reflexivity|].
  split; [discriminate|].
  intros E.
  apply (@fix_walk_warns_iff_changed Sample.tree_regexp_fix _ _ _ eq_refl) in E.
  discriminate.
Defined.

Section Ignored.
Variable matchDeclaration : node -> option MatchError.

Hypothesis other_errors :
  forall n e, matchDeclaration n = Some e ->
              me_name e <> js "SyntaxMatchError"
              /\ me_name e <> js "SyntaxReferenceError".

Lemma validateNode_ignores n : validateNode matchDeclaration n = [].
Proof.
  induction n as [l name p block IH | l p block IH | l i property value |]
    using node_nested_ind; cbn [validateNode]; try reflexivity.
  - destruct block as [children|]; [|reflexivity].
    specialize (IH children eq_refl).
    induction IH as [|x xs Hx _ IHxs]; [reflexivity|].
    cbn [flat_map]. now rewrite Hx, IHxs.
  - induction IH as [|x xs Hx _ IHxs]; [reflexivity|].
    cbn [flat_map]. now rewrite Hx, IHxs.
  - unfold reportDeclaration.
    destruct (matchDeclaration (Declaration l i property value)) as [e|] eqn:E;
      [|reflexivity].
    destruct (other_errors E) as [H1 H2].
    apply str_eqb_neq in H1, H2. now rewrite H1, H2.
Qed.

(** X21. Errors of the lexer other than [SyntaxMatchError] and
    [SyntaxReferenceError] are not reported: when it raises only such
    errors, the walk over the declarations of any tree collects
    nothing. *)
Theorem validate_ignores_other_errors (ast : StyleSheet) :
  flat_map (validateNode matchDeclaration) ast = [].
Proof.
  induction ast as [|n ast IH]; [reflexivity|].
  cbn [flat_map]. now rewrite validateNode_ignores, IH.
Qed.

End Ignored.

Lemma validate_ignores_other_errors_witness :
  flat_map (validateNode Sample.matchDeclaration_other) Sample.tree_5px = [].
Proof.
  apply validate_ignores_other_errors.
  intros n e H. unfold Sample.matchDeclaration_other in H.
  destruct n; try discriminate. injection H as <-.
  split; vm_compute; discriminate.
Defined.
